(** * remove_duplicate_shapes.jsx: geometry fingerprints and duplicate removal

    A shallow embedding of the ExtendScript program
    [src/remove_duplicate_shapes.jsx] and the properties of its
    fingerprint functions ([pathToHash], [compoundPathToHash]), of its
    tree traversal ([collectPaths]) and of its two-phase removal of
    duplicates ([main]).

    Conventions of the embedding.
    - A JavaScript Number holding a coordinate is the exact rational it
      denotes ([Q]); [Number.prototype.toFixed] is defined on that exact
      value by ECMAScript, so no floating-point rounding is involved.
    - Strings are [string]; all strings the script builds are ASCII, so
      code-unit order is [String.compare].
    - A host object (page item, layer) is a record whose optional
      properties are [option]s; object identity is the field [uid].
    - The object used as a hash map ([hashToPaths]) is an association
      list in insertion order, the order [for .. in] enumerates it.
    - The host's [remove()] and the script's [alert] and [$.writeln] are
      effects: a state monad over the live document and an event trace. *)

From Stdlib Require Import String Ascii List ZArith QArith Qround Qabs.
From Stdlib Require Import Bool Arith Lia Lqa Permutation Sorted.
Import ListNotations.

Open Scope string_scope.
Open Scope list_scope.

Infix "+++" := String.append (right associativity, at level 60).

(** ** The JavaScript built-ins the script uses *)

Module JS.

(** [Array.prototype.join] on an array of strings. *)
Fixpoint join (sep : string) (l : list string) : string :=
  match l with
  | [] => ""
  | [x] => x
  | x :: rest => x +++ sep +++ join sep rest
  end.

(** Decimal digits of a non-negative integer, most significant first;
    [0] is printed as "0". *)
Definition digitChar (d : Z) : ascii := ascii_of_nat (48 + Z.to_nat d).

Fixpoint digitsAux (fuel : nat) (n : Z) (acc : string) : string :=
  match fuel with
  | O => acc
  | S fuel' =>
      let acc' := String (digitChar (n mod 10)) acc in
      if (n / 10 =? 0)%Z then acc' else digitsAux fuel' (n / 10) acc'
  end.

Definition decimalDigits (n : Z) : string :=
  digitsAux (S (Z.to_nat (Z.log2 n))) n "".

Fixpoint zeros (k : nat) : string :=
  match k with
  | O => ""
  | S k' => String "0" (zeros k')
  end.

(** Step 8a of [Number.prototype.toFixed]: the integer [n] for which
    [n / 10^f - x] is as close to zero as possible, the larger one when
    there are two; here for [x >= 0]. *)
Definition pow10 (f : nat) : Z := (10 ^ Z.of_nat f)%Z.

Definition roundScaled (f : nat) (x : Q) : Z :=
  Qfloor (Qabs x * inject_Z (pow10 f) + (1 # 2)).

Definition isNegative (x : Q) : bool := (Qnum x <? 0)%Z.

(** Steps 5 and 6: the sign. *)
Definition sign (x : Q) : string := if isNegative x then "-" else "".

(** Steps 8b and 8c: the digits of [n], padded with zeros to more than
    [f] digits, with a point before the last [f] of them. *)
Definition fixedDigits (f : nat) (n : Z) : string :=
  let m := decimalDigits n in
  if (f =? 0)%nat then m
  else
    let k := String.length m in
    let m' := if (k <=? f)%nat then zeros (f + 1 - k) +++ m else m in
    let k' := if (k <=? f)%nat then (f + 1)%nat else k in
    let a := substring 0 (k' - f) m' in
    let b := substring (k' - f) f m' in
    a +++ "." +++ b.

(** [x.toFixed(fractionDigits)], ECMAScript 15.7.4.5, steps 5 to 10.
    Left out: the RangeError for [fractionDigits] beyond the engine's
    limit, NaN, and step 7 ([x >= 10^21] falls back to [ToString]);
    coordinates of artwork are finite and far below that bound, and the
    positional formatting below is applied to every rational. *)
Definition toFixed (x : Q) (fractionDigits : nat) : string :=
  let f := fractionDigits in
  sign x +++ fixedDigits f (roundScaled f x).

(** [Array.prototype.sort] without a comparator, on strings: ascending
    code-unit order.  The order is total and antisymmetric, so the
    result does not depend on the engine's algorithm; insertion sort
    stands for it. *)
Fixpoint insert (s : string) (l : list string) : list string :=
  match l with
  | [] => [s]
  | h :: t => if String.leb s h then s :: l else h :: insert s t
  end.

Definition sort (l : list string) : list string := fold_right insert [] l.

(** Truthiness of a string: only the empty string is falsy. *)
Definition truthy (s : string) : bool :=
  match s with
  | EmptyString => false
  | String _ _ => true
  end.

End JS.

(** ** The host object model, as far as the script reads it *)

(** [PointType] of a path point; [join] prints it by its name. *)
Inductive PointType : Type := CORNER | SMOOTH.

Definition PointType_toString (t : PointType) : string :=
  match t with
  | CORNER => "PointType.CORNER"
  | SMOOTH => "PointType.SMOOTH"
  end.

Record PathPoint : Type := mkPathPoint {
  anchor : Q * Q;
  leftDirection : Q * Q;
  rightDirection : Q * Q;
  pointType : PointType
}.

(** A page item or a layer.  [pathPoints], [pathItems] and [pageItems]
    are [None] when the object has no such property. *)
#[warnings="-register-all"]
Inductive PageItem : Type := mkPageItem {
  uid : nat;
  typename : string;
  locked : bool;
  hidden : bool;
  guides : bool;
  clipping : bool;
  pathPoints : option (list PathPoint);
  closed : bool;
  pathItems : option (list PageItem);
  pageItems : option (list PageItem)
}.

Record Document : Type := mkDocument {
  layers : list PageItem;
  selection : option (list PageItem)
}.

(** ** remove_duplicate_shapes.jsx *)

(** [var precision = 1]: the default of the global the script reads; the
    functions below take it as an argument. *)
Definition precision : nat := 1.

Definition containerTypes : list string :=
  ["GroupItem"; "CompoundPathItem"; "Layer"].

Definition isContainerType (typeName : string) : bool :=
  existsb (fun t => String.eqb t typeName) containerTypes.

(** The array literal of lines 33-41 and its [join(",")]. *)
Definition fields (precision : nat) (pt : PathPoint) : list string :=
  [ JS.toFixed (fst (anchor pt)) precision;
    JS.toFixed (snd (anchor pt)) precision;
    JS.toFixed (fst (leftDirection pt)) precision;
    JS.toFixed (snd (leftDirection pt)) precision;
    JS.toFixed (fst (rightDirection pt)) precision;
    JS.toFixed (snd (rightDirection pt)) precision;
    PointType_toString (pointType pt) ].

Definition pointHash (precision : nat) (pt : PathPoint) : string :=
  JS.join "," (fields precision pt).

Definition pathToHash (precision : nat) (path : PageItem) : string :=
  match pathPoints path with
  | None => ""
  | Some [] => ""
  | Some pts =>
      let pointHashes :=
        fold_left (fun acc pt => acc ++ [pointHash precision pt]) pts [] in
      let closed := if closed path then "closed" else "open" in
      JS.join ";" pointHashes +++ "|" +++ closed
  end.

Definition compoundPathToHash (precision : nat) (compoundPath : PageItem)
  : string :=
  match pathItems compoundPath with
  | None => ""
  | Some [] => ""
  | Some items =>
      let subpathHashes :=
        fold_left (fun acc p => acc ++ [pathToHash precision p]) items [] in
      JS.join "|" (JS.sort subpathHashes)
  end.

(** The test of lines 84-91 (and 176-183).  The host's collections hold
    objects, so the guards [!pageItem] and [!selectionItem] never fire
    and are not modelled. *)
Definition skipped (pageItem : PageItem) : bool :=
  locked pageItem || hidden pageItem || guides pageItem || clipping pageItem.

Definition nonEmpty {A : Type} (o : option (list A)) : bool :=
  match o with
  | Some (_ :: _) => true
  | _ => false
  end.

(** One iteration of the loop of [collectPaths], lines 81-111; [recur]
    is the recursive call of line 110. *)
Definition collectStep (recur : PageItem -> list PageItem -> list PageItem)
    (pageItemTypename : string) (paths : list PageItem) (pageItem : PageItem)
  : list PageItem :=
  if skipped pageItem then paths
  else if String.eqb (typename pageItem) pageItemTypename then
    let paths :=
      if String.eqb pageItemTypename "PathItem"
         && nonEmpty (pathPoints pageItem)
      then paths ++ [pageItem] else paths in
    if String.eqb pageItemTypename "CompoundPathItem"
       && nonEmpty (pathItems pageItem)
    then paths ++ [pageItem] else paths
  else if isContainerType (typename pageItem) then recur pageItem paths
  else paths.

(** [collectPaths(container, paths, pageItemTypename)]; the array [paths]
    is threaded through, and the result is its final content. *)
Fixpoint collectPathsOf (pageItemTypename : string) (container : PageItem)
    (paths : list PageItem) {struct container} : list PageItem :=
  match container with
  | mkPageItem _ _ _ _ _ _ _ _ _ None => paths
  | mkPageItem _ _ _ _ _ _ _ _ _ (Some items) =>
      (fix loop (items : list PageItem) (paths : list PageItem)
         : list PageItem :=
         match items with
         | [] => paths
         | pageItem :: rest =>
             loop rest
               (collectStep (collectPathsOf pageItemTypename)
                  pageItemTypename paths pageItem)
         end) items paths
  end.

(** The third argument is optional: [undefined] stands for "PathItem". *)
Definition collectPaths (container : PageItem) (paths : list PageItem)
    (pageItemTypename : option string) : list PageItem :=
  let pageItemTypename :=
    match pageItemTypename with
    | None => "PathItem"
    | Some t => t
    end in
  collectPathsOf pageItemTypename container paths.

Definition collectCompoundPaths (container : PageItem)
    (paths : list PageItem) : list PageItem :=
  collectPaths container paths (Some "CompoundPathItem").

(** ** Effects: the live document and the trace of host calls *)

(** What the script does to its environment, in order: [alert(msg)],
    [$.writeln(e)], and [item.remove()] together with the exception it
    raised, if any. *)
Inductive Event : Type :=
  | EvAlert (msg : string)
  | EvWriteln (e : string)
  | EvRemove (item : PageItem) (raised : option string).

Record World : Type := mkWorld {
  document : Document;
  events : list Event
}.

Definition M (A : Type) : Type := World -> A * World.

Definition ret {A : Type} (a : A) : M A := fun w => (a, w).

Definition bind {A B : Type} (m : M A) (k : A -> M B) : M B :=
  fun w => let (a, w') := m w in k a w'.

Notation "x <- m ;; k" := (bind m (fun x => k))
  (at level 61, m at next level, right associativity).
Notation "m ;;; k" := (bind m (fun _ => k))
  (at level 61, right associativity).

Definition emit (e : Event) : M unit :=
  fun w => (tt, mkWorld (document w) (events w ++ [e])).

Definition alert (msg : string) : M unit := emit (EvAlert msg).

Definition writeln (e : string) : M unit := emit (EvWriteln e).

Definition activeDocument : M Document := fun w => (document w, w).

(** The object used as a map from hash to array of items: its own
    properties in insertion order, the order [for .. in] enumerates
    them.  Inherited properties play no part, see [Keys]. *)
Definition HashTable : Type := list (string * list PageItem).

Fixpoint lookup (hash : string) (table : HashTable)
  : option (list PageItem) :=
  match table with
  | [] => None
  | (k, v) :: rest => if String.eqb k hash then Some v else lookup hash rest
  end.

(** [table[hash].push(item)]. *)
Fixpoint push (hash : string) (item : PageItem) (table : HashTable)
  : HashTable :=
  match table with
  | [] => []
  | (k, v) :: rest =>
      if String.eqb k hash then (k, v ++ [item]) :: rest
      else (k, v) :: push hash item rest
  end.

(** One iteration of the grouping loops, lines 139-148 and 208-219. *)
Definition groupStep (hashOf : PageItem -> string) (table : HashTable)
    (item : PageItem) : HashTable :=
  let hash := hashOf item in
  if negb (JS.truthy hash) then table
  else
    let table :=
      match lookup hash table with
      | None => table ++ [(hash, [])]
      | Some _ => table
      end in
    push hash item table.

Definition groupByHash (hashOf : PageItem -> string) (items : list PageItem)
  : HashTable :=
  fold_left (groupStep hashOf) items [].

(** The layers [doc.layers[i]] for [i < docLayersLength], read from the
    live document; an index past the end reads [undefined], which
    [collectPaths] returns on. *)
Definition collectInLayers (doc : Document) (docLayersLength : nat)
    (pageItemTypename : option string) (paths : list PageItem)
  : list PageItem :=
  fold_left
    (fun paths i =>
       match nth_error (layers doc) i with
       | Some layer => collectPaths layer paths pageItemTypename
       | None => paths
       end)
    (seq 0 docLayersLength) paths.

(** The loop over [doc.selection], lines 172-190. *)
Definition selectionStep (paths : list PageItem) (selectionItem : PageItem)
  : list PageItem :=
  if skipped selectionItem then paths
  else if String.eqb (typename selectionItem) "PathItem" then
    paths ++ [selectionItem]
  else if isContainerType (typename selectionItem) then
    collectPaths selectionItem paths None
  else paths.

(** The candidates of phase 2, lines 166-195. *)
Definition candidatePaths (doc : Document) (docLayersLength : nat)
  : list PageItem :=
  match selection doc with
  | Some (first :: rest) => fold_left selectionStep (first :: rest) []
  | _ => collectInLayers doc docLayersLength None []
  end.

Definition plural (count : nat) (one many : string) : string :=
  if (count =? 1)%nat then one else many.

Definition summary (removedCount compoundRemovedCount : nat) : string :=
  "Removed " +++ JS.decimalDigits (Z.of_nat removedCount)
  +++ " duplicate path item" +++ plural removedCount ", " "s, "
  +++ JS.decimalDigits (Z.of_nat compoundRemovedCount)
  +++ " duplicate compound path" +++ plural compoundRemovedCount "!" "s!".

Definition noDocuments : string := "No documents are open.".

Definition nothingEligible : string :=
  "No eligible paths found (check for locked/hidden items, or groups/compound paths).".

Section Script.

(** The host's [remove()]: the document afterwards, and the exception
    raised, if any. *)
Variable hostRemove : PageItem -> Document -> Document * option string.

Definition remove (item : PageItem) : M (option string) :=
  fun w =>
    let (doc, raised) := hostRemove item (document w) in
    (raised, mkWorld doc (events w ++ [EvRemove item raised])).

(** The body of the inner loops, lines 155-162 and 229-236, over the
    members [dups[j]], [j >= 1]. *)
Fixpoint removeEach (members : list PageItem) (count : nat) : M nat :=
  match members with
  | [] => ret count
  | member :: rest =>
      raised <- remove member ;;
      match raised with
      | None => removeEach rest (S count)
      | Some e => writeln e ;;; removeEach rest count
      end
  end.

(** [for (var hash in table)], lines 152-163 and 224-237. *)
Fixpoint removeDuplicates (table : HashTable) (count : nat) : M nat :=
  match table with
  | [] => ret count
  | (_, dups) :: rest =>
      count <- removeEach (skipn 1 dups) count ;;
      removeDuplicates rest count
  end.

(** Both phases group and then remove; [dedupe] names that pair of
    loops. *)
Definition dedupe (hashOf : PageItem -> string) (items : list PageItem)
  : M nat :=
  removeDuplicates (groupByHash hashOf items) 0.

(** [main], from line 126 on: a document is open. *)
Definition mainOn (precision : nat) : M unit :=
  doc <- activeDocument ;;
  let docLayersLength := length (layers doc) in
  let compoundPaths :=
    collectInLayers doc docLayersLength (Some "CompoundPathItem") [] in
  let hashToCompoundPaths :=
    groupByHash (compoundPathToHash precision) compoundPaths in
  let compoundPathsLength := length compoundPaths in
  compoundRemovedCount <- removeDuplicates hashToCompoundPaths 0 ;;
  doc <- activeDocument ;;
  let paths := candidatePaths doc docLayersLength in
  let pathsLength := length paths in
  if (pathsLength =? 0)%nat && (compoundPathsLength =? 0)%nat then
    alert nothingEligible
  else
    let hashToPaths := groupByHash (pathToHash precision) paths in
    removedCount <- removeDuplicates hashToPaths 0 ;;
    alert (summary removedCount compoundRemovedCount).

(** [main()]: [app] is the active document, [None] when no document is
    open.  The result is the document afterwards and the trace. *)
Definition main (precision : nat) (app : option Document)
  : option Document * list Event :=
  match app with
  | None => (None, [EvAlert noDocuments])
  | Some doc =>
      let (_, w) := mainOn precision (mkWorld doc []) in
      (Some (document w), events w)
  end.

End Script.

(** ** A reference host *)

Module Host.

(** The items of [items] other than the one with identity [u], each with
    [u] deleted from inside it. *)
Fixpoint prune (u : nat) (item : PageItem) {struct item} : PageItem :=
  match item with
  | mkPageItem i t l h g c pts cl subs children =>
      let pruneAll :=
        fix pruneAll (items : list PageItem) : list PageItem :=
          match items with
          | [] => []
          | x :: rest =>
              if (uid x =? u)%nat then pruneAll rest
              else prune u x :: pruneAll rest
          end in
      mkPageItem i t l h g c pts cl
        match subs with Some xs => Some (pruneAll xs) | None => None end
        match children with Some xs => Some (pruneAll xs) | None => None end
  end.

Definition pruneAll (u : nat) (items : list PageItem) : list PageItem :=
  map (prune u) (filter (fun x => negb (uid x =? u)%nat) items).

(** [item.remove()] on a host that refuses the items whose identity is
    in [failing] and deletes every other item from the document. *)
Definition remove (failing : list nat) (item : PageItem) (doc : Document)
  : Document * option string :=
  if existsb (Nat.eqb (uid item)) failing then
    (doc, Some "Error: the item cannot be removed")
  else
    (mkDocument (pruneAll (uid item) (layers doc))
       match selection doc with
       | Some sel => Some (pruneAll (uid item) sel)
       | None => None
       end,
     None).

End Host.

(** ** [pathToHash] with the limits of [toFixed] *)

(** The exception [toFixed] raises. *)
Inductive Thrown : Type := RangeError.

(** [pathToHash] on an engine whose [toFixed] accepts at most
    [digitLimit] fraction digits (20 up to ECMAScript 5, 100 since
    ECMAScript 2018) and whose conversion of a Number to a string,
    which [toFixed] falls back on from [10^21] on, is
    [numberToString].  A result is the exception raised or the value
    returned. *)
Module Checked.

Section OnEngine.

Variable digitLimit : nat.
Variable numberToString : Q -> string.

Definition andThen {A B : Type} (r : Thrown + A) (k : A -> Thrown + B)
  : Thrown + B :=
  match r with
  | inl e => inl e
  | inr a => k a
  end.

(** [x.toFixed(fractionDigits)], ECMAScript 15.7.4.5: step 2 raises,
    steps 5 and 6 take the sign, step 7 converts a magnitude from
    [10^21] on as [ToString] does, step 8 prints the digits. *)
Definition toFixed (x : Q) (fractionDigits : nat) : Thrown + string :=
  if (digitLimit <? fractionDigits)%nat then inl RangeError
  else if Qle_bool (inject_Z (10 ^ 21)) (Qabs x) then
    inr (JS.sign x +++ numberToString (Qabs x))
  else inr (JS.toFixed x fractionDigits).

(** The array literal of lines 33-41, its elements evaluated in order. *)
Definition fields (precision : nat) (pt : PathPoint) : Thrown + list string :=
  andThen (toFixed (fst (anchor pt)) precision) (fun ax =>
  andThen (toFixed (snd (anchor pt)) precision) (fun ay =>
  andThen (toFixed (fst (leftDirection pt)) precision) (fun lx =>
  andThen (toFixed (snd (leftDirection pt)) precision) (fun ly =>
  andThen (toFixed (fst (rightDirection pt)) precision) (fun rx =>
  andThen (toFixed (snd (rightDirection pt)) precision) (fun ry =>
  inr [ax; ay; lx; ly; rx; ry; PointType_toString (pointType pt)])))))).

Definition pointHash (precision : nat) (pt : PathPoint) : Thrown + string :=
  andThen (fields precision pt) (fun l => inr (JS.join "," l)).

Definition pathToHash (precision : nat) (path : PageItem) : Thrown + string :=
  match pathPoints path with
  | None => inr ""
  | Some [] => inr ""
  | Some pts =>
      andThen
        (fold_left
           (fun acc pt =>
              andThen acc (fun pointHashes =>
              andThen (pointHash precision pt) (fun h =>
              inr (pointHashes ++ [h]))))
           pts (inr []))
        (fun pointHashes =>
           let closed := if closed path then "closed" else "open" in
           inr (JS.join ";" pointHashes +++ "|" +++ closed))
  end.

End OnEngine.

End Checked.

(** * Vocabulary of the properties *)

(** ** Characters of the strings the script builds *)

Module Chars.

(** [all P s]: every character of [s] satisfies [P]. *)
Fixpoint all (P : ascii -> bool) (s : string) : bool :=
  match s with
  | EmptyString => true
  | String c s' => P c && all P s'
  end.

Definition isDigit (c : ascii) : bool :=
  (48 <=? nat_of_ascii c)%nat && (nat_of_ascii c <=? 57)%nat.

Definition digitValue (c : ascii) : Z := Z.of_nat (nat_of_ascii c) - 48.

(** The number a string of digits denotes; leading zeros do not count. *)
Fixpoint value (s : string) : Z :=
  match s with
  | EmptyString => 0
  | String c s' =>
      digitValue c * 10 ^ Z.of_nat (String.length s') + value s'
  end.

Definition startsWithDigit (s : string) : bool :=
  match s with
  | EmptyString => false
  | String c _ => isDigit c
  end.

(** The characters of a formatted number. *)
Definition isNumeric (c : ascii) : bool :=
  isDigit c || Ascii.eqb c "-" || Ascii.eqb c ".".

(** Characters: a field holds no separator, a token no ";" and no "|",
    the joined tokens no "|". *)
Definition isFieldChar (c : ascii) : bool :=
  negb (Ascii.eqb c ",") && negb (Ascii.eqb c ";") && negb (Ascii.eqb c "|").

Definition isTokenChar (c : ascii) : bool :=
  negb (Ascii.eqb c ";") && negb (Ascii.eqb c "|").

Definition isBarFree (c : ascii) : bool := negb (Ascii.eqb c "|").

End Chars.

(** ** The order of [sort] *)

Definition strLe (a b : string) : Prop := String.leb a b = true.

(** ** Parts of a shape *)

(** The control points a page item exposes; none when the property is
    missing. *)
Definition pointsOf (path : PageItem) : list PathPoint :=
  match pathPoints path with
  | Some pts => pts
  | None => []
  end.

Definition marker (path : PageItem) : string :=
  if closed path then "closed" else "open".

(** ** The traversal *)

(** What one child contributes to an empty array. *)
Definition contribution (t : string) (pageItem : PageItem) : list PageItem :=
  collectStep (collectPathsOf t) t [] pageItem.

(** ** Groups and traces *)

Definition keyIs (hashOf : PageItem -> string) (k : string) (x : PageItem)
  : bool :=
  String.eqb (hashOf x) k.

(** The duplicate group of key [k]: the items with that key, in
    collection order. *)
Definition members (hashOf : PageItem -> string) (k : string)
    (items : list PageItem) : list PageItem :=
  filter (keyIs hashOf k) items.

(** The members past the first of every group, group by group. *)
Definition duplicates (hashOf : PageItem -> string) (items : list PageItem)
  : list PageItem :=
  flat_map (fun g => skipn 1 (snd g)) (groupByHash hashOf items).

(** What a table must be to be the grouping of [items]. *)
Definition grouped (hashOf : PageItem -> string) (items : list PageItem)
    (table : HashTable) : Prop :=
  NoDup (map fst table)
  /\ (forall k g, In (k, g) table ->
        k <> "" /\ g <> [] /\ g = members hashOf k items)
  /\ (forall x, In x items -> hashOf x <> "" ->
        In (hashOf x) (map fst table)).

(** The items [remove()] was called on, in order. *)
Definition removeTargets (evs : list Event) : list PageItem :=
  flat_map (fun e => match e with EvRemove x _ => [x] | _ => [] end) evs.

(** The number of calls of [remove()] that returned. *)
Definition successes (evs : list Event) : nat :=
  length
    (filter (fun e => match e with EvRemove _ None => true | _ => false end)
       evs).

(** The exceptions [remove()] raised, and the lines written to the
    console. *)
Definition failures (evs : list Event) : list string :=
  flat_map (fun e => match e with EvRemove _ (Some m) => [m] | _ => [] end)
    evs.

Definition written (evs : list Event) : list string :=
  flat_map (fun e => match e with EvWriteln m => [m] | _ => [] end) evs.

Definition alerts (evs : list Event) : list string :=
  flat_map (fun e => match e with EvAlert m => [m] | _ => [] end) evs.

(** What a run of removals leaves in the trace: the calls of
    [remove()] on [targets] in order, whatever their outcome; one
    console line per exception; no alert. *)
Definition removalTrace (targets : list PageItem) (evs : list Event) : Prop :=
  removeTargets evs = targets
  /\ written evs = failures evs
  /\ alerts evs = []
  /\ length targets = (successes evs + length (failures evs))%nat.

(** ** The fingerprint in the words of the specification *)

(** Two coordinates whose values formatted to [f] digits have the same
    sign and are at most one unit of the last digit apart. *)
Definition coordNear (f : nat) (x y : Q) : Prop :=
  JS.isNegative x = JS.isNegative y
  /\ (Z.abs (JS.roundScaled f x - JS.roundScaled f y) <= 1)%Z.

Definition pointNear (f : nat) (a b : PathPoint) : Prop :=
  coordNear f (fst (anchor a)) (fst (anchor b))
  /\ coordNear f (snd (anchor a)) (snd (anchor b))
  /\ coordNear f (fst (leftDirection a)) (fst (leftDirection b))
  /\ coordNear f (snd (leftDirection a)) (snd (leftDirection b))
  /\ coordNear f (fst (rightDirection a)) (fst (rightDirection b))
  /\ coordNear f (snd (rightDirection a)) (snd (rightDirection b))
  /\ pointType a = pointType b.

(** [k] separators and nothing else. *)
Fixpoint bars (k : nat) : string :=
  match k with
  | O => ""
  | S k' => String "|" (bars k')
  end.

(** ** Objects of the scenarios *)

(** A corner point without handles. *)
Definition cornerAt (x y : Q) : PathPoint :=
  mkPathPoint (x, y) (x, y) (x, y) CORNER.

Definition pathItem (u : nat) (pts : list PathPoint) (isClosed : bool)
  : PageItem :=
  mkPageItem u "PathItem" false false false false (Some pts) isClosed
    None None.

Definition lockedPathItem (u : nat) (pts : list PathPoint) : PageItem :=
  mkPageItem u "PathItem" true false false false (Some pts) true None None.

Definition compoundPathItem (u : nat) (subs : list PageItem) : PageItem :=
  mkPageItem u "CompoundPathItem" false false false false None false
    (Some subs) None.

Definition layer (u : nat) (items : list PageItem) : PageItem :=
  mkPageItem u "Layer" false false false false None false None (Some items).

(** The four eligibility flags. *)
Definition flagged (x : PageItem) : Prop :=
  locked x = true \/ hidden x = true \/ guides x = true \/ clipping x = true.

(** Two outlines that the rounding at one digit cannot tell apart and
    the rounding at no digit can: the abscissas 15/32 and 17/32 both
    print as 0.5, and as 0 and 1. *)
Definition outlineBelowHalf : PageItem :=
  pathItem 1 [cornerAt (15 # 32) 0] true.

Definition outlineAboveHalf : PageItem :=
  pathItem 2 [cornerAt (17 # 32) 0] true.

(** ** Runs of [main] *)

(** The candidates of phase 1, lines 129-134. *)
Definition compoundCandidates (doc : Document) : list PageItem :=
  collectInLayers doc (length (layers doc)) (Some "CompoundPathItem") [].

(** The test of line 199. *)
Definition nothingFound (paths compoundPaths : list PageItem) : bool :=
  (length paths =? 0)%nat && (length compoundPaths =? 0)%nat.

(** A run of [main] on [doc] in two phases: [ev1] is the trace of the
    removal of duplicate compound paths, [doc1] the document it leaves,
    [ev2] the trace of the removal of duplicate paths among the
    candidates read from [doc1]; one alert ends the run. *)
Definition twoPhases (p : nat) (doc : Document)
    (result : option Document * list Event)
    (doc1 : Document) (ev1 ev2 : list Event) : Prop :=
  let compoundPaths := compoundCandidates doc in
  let paths := candidatePaths doc1 (length (layers doc)) in
  removalTrace (duplicates (compoundPathToHash p) compoundPaths) ev1
  /\ removalTrace (duplicates (pathToHash p) paths) ev2
  /\ exists doc2,
       result =
       (Some doc2,
        ev1 ++ ev2 ++
        [EvAlert (if nothingFound paths compoundPaths then nothingEligible
                  else summary (successes ev2) (successes ev1))]).

(** ** Vocabulary of the further properties *)

(** Two coordinates that [toFixed] prints alike at [f] digits: the same
    sign and the same rounded integer. *)
Definition coordSame (f : nat) (x y : Q) : Prop :=
  JS.isNegative x = JS.isNegative y
  /\ JS.roundScaled f x = JS.roundScaled f y.

Definition pointSame (f : nat) (a b : PathPoint) : Prop :=
  coordSame f (fst (anchor a)) (fst (anchor b))
  /\ coordSame f (snd (anchor a)) (snd (anchor b))
  /\ coordSame f (fst (leftDirection a)) (fst (leftDirection b))
  /\ coordSame f (snd (leftDirection a)) (snd (leftDirection b))
  /\ coordSame f (fst (rightDirection a)) (fst (rightDirection b))
  /\ coordSame f (snd (rightDirection a)) (snd (rightDirection b))
  /\ pointType a = pointType b.

(** The parts of a path's fingerprint between the separators "|": one
    empty part for a path without points, else the joined tokens and
    the marker. *)
Definition pieces (p : nat) (path : PageItem) : list string :=
  match pointsOf path with
  | [] => [""]
  | pts => [JS.join ";" (map (pointHash p) pts); marker path]
  end.

(** What lies below an object through [pageItems], in document order;
    the object itself is not included. *)
Fixpoint descendants (x : PageItem) : list PageItem :=
  match x with
  | mkPageItem _ _ _ _ _ _ _ _ _ None => []
  | mkPageItem _ _ _ _ _ _ _ _ _ (Some items) =>
      (fix below (items : list PageItem) : list PageItem :=
         match items with
         | [] => []
         | y :: rest => y :: descendants y ++ below rest
         end) items
  end.

(** An object and what lies below it. *)
Definition subtree (x : PageItem) : list PageItem := x :: descendants x.

(** [Subseq l m]: [l] is [m] with some elements left out. *)
Inductive Subseq {A : Type} : list A -> list A -> Prop :=
  | Subseq_nil : Subseq [] []
  | Subseq_skip (x : A) (l m : list A) : Subseq l m -> Subseq l (x :: m)
  | Subseq_keep (x : A) (l m : list A) : Subseq l m -> Subseq (x :: l) (x :: m).

(** The candidates the grouping loop does not skip. *)
Definition keyed (hashOf : PageItem -> string) (items : list PageItem)
  : list PageItem :=
  filter (fun x => JS.truthy (hashOf x)) items.

(** A host whose [remove()] never raises. *)
Definition neverRaises
    (hostRemove : PageItem -> Document -> Document * option string) : Prop :=
  forall x d, snd (hostRemove x d) = None.

Definition removed (x : PageItem) : Event := EvRemove x None.

(** Two coordinates less than one unit of the [f]-th decimal apart. *)
Definition coordWithin (f : nat) (x y : Q) : Prop :=
  (Qabs (x - y) * inject_Z (JS.pow10 f) < 1)%Q.

Definition pointWithin (f : nat) (a b : PathPoint) : Prop :=
  coordWithin f (fst (anchor a)) (fst (anchor b))
  /\ coordWithin f (snd (anchor a)) (snd (anchor b))
  /\ coordWithin f (fst (leftDirection a)) (fst (leftDirection b))
  /\ coordWithin f (snd (leftDirection a)) (snd (leftDirection b))
  /\ coordWithin f (fst (rightDirection a)) (fst (rightDirection b))
  /\ coordWithin f (snd (rightDirection a)) (snd (rightDirection b)).

(** The number of items a table holds. *)
Definition stored (t : HashTable) : nat := length (flat_map snd t).

(** ** The fingerprint in the words of the specification, continued *)

(** [s] is [x] rounded and formatted to [f] decimal digits: a minus
    sign for a negative [x], then the decimal numeral with exactly [f]
    digits after the point (no point when [f] is 0) and no superfluous
    leading zero, of the integer [n] nearest to [|x| * 10^f], the
    larger one of two. *)
Definition Rounded (f : nat) (x : Q) (s : string) : Prop :=
  exists (n : Z) (neg whole frac : string),
    (inject_Z n - (1 # 2) <= Qabs x * inject_Z (10 ^ Z.of_nat f))%Q
    /\ (Qabs x * inject_Z (10 ^ Z.of_nat f) < inject_Z n + (1 # 2))%Q
    /\ ((x < 0)%Q -> neg = "-") /\ ((0 <= x)%Q -> neg = "")
    /\ Chars.all Chars.isDigit whole = true
    /\ Chars.all Chars.isDigit frac = true
    /\ String.length frac = f
    /\ (whole = "0" \/ exists c r, whole = String c r /\ c <> "0"%char)
    /\ Chars.value (whole +++ frac) = n
    /\ s = neg +++ whole +++ (if (f =? 0)%nat then "" else "." +++ frac).

(** A per-point token: the six coordinates rounded to [precision]
    digits and the raw kind tag, joined by commas. *)
Definition IsToken (precision : nat) (pt : PathPoint) (token : string)
  : Prop :=
  exists ax ay lx ly rx ry,
    Rounded precision (fst (anchor pt)) ax
    /\ Rounded precision (snd (anchor pt)) ay
    /\ Rounded precision (fst (leftDirection pt)) lx
    /\ Rounded precision (snd (leftDirection pt)) ly
    /\ Rounded precision (fst (rightDirection pt)) rx
    /\ Rounded precision (snd (rightDirection pt)) ry
    /\ token =
       String.concat ","
         [ax; ay; lx; ly; rx; ry; PointType_toString (pointType pt)].

(** The fingerprint: the tokens of the control points in original
    order joined by semicolons, then "|" and the closed/open marker. *)
Definition IsFingerprint (precision : nat) (controlPoints : list PathPoint)
    (isClosed : bool) (key : string) : Prop :=
  exists tokens,
    Forall2 (IsToken precision) controlPoints tokens
    /\ key = String.concat ";" tokens
             +++ "|" +++ (if isClosed then "closed" else "open").

(** A coordinate [toFixed] prints positionally, and a point all of
    whose coordinates are such. *)
Definition inRange (x : Q) : Prop := (Qabs x < inject_Z (10 ^ 21))%Q.

Definition pointInRange (pt : PathPoint) : Prop :=
  inRange (fst (anchor pt)) /\ inRange (snd (anchor pt))
  /\ inRange (fst (leftDirection pt)) /\ inRange (snd (leftDirection pt))
  /\ inRange (fst (rightDirection pt)) /\ inRange (snd (rightDirection pt)).

(** ** A run of [main], phase by phase *)

(** Calling [remove()] on each of [targets] in turn, whatever each call
    does: the events, and the document the host leaves. *)
Fixpoint attempts
    (hostRemove : PageItem -> Document -> Document * option string)
    (targets : list PageItem) (doc : Document) : list Event * Document :=
  match targets with
  | [] => ([], doc)
  | x :: rest =>
      let (doc', raised) := hostRemove x doc in
      let (evs, doc'') := attempts hostRemove rest doc' in
      (EvRemove x raised
         :: match raised with
            | Some e => [EvWriteln e]
            | None => []
            end ++ evs,
       doc'')
  end.

Section Phases.

Variable hostRemove : PageItem -> Document -> Document * option string.
Variable p : nat.
Variable doc : Document.

(** Phase 1: the duplicates among the compound paths of the document. *)
Definition phase1Targets : list PageItem :=
  duplicates (compoundPathToHash p) (compoundCandidates doc).

Definition phase1Events : list Event :=
  fst (attempts hostRemove phase1Targets doc).

(** The document when phase 2 starts. *)
Definition documentAfterPhase1 : Document :=
  snd (attempts hostRemove phase1Targets doc).

(** Phase 2: the duplicates among the candidates read from that
    document. *)
Definition phase2Candidates : list PageItem :=
  candidatePaths documentAfterPhase1 (length (layers doc)).

Definition phase2Targets : list PageItem :=
  duplicates (pathToHash p) phase2Candidates.

Definition phase2Events : list Event :=
  fst (attempts hostRemove phase2Targets documentAfterPhase1).

Definition documentAfterPhase2 : Document :=
  snd (attempts hostRemove phase2Targets documentAfterPhase1).

Definition finalMessage : string :=
  if nothingFound phase2Candidates (compoundCandidates doc)
  then nothingEligible
  else summary (successes phase2Events) (successes phase1Events).

End Phases.



(** * Properties *)

(** ** Strings: separators and the characters of a token *)

Module Str.

Import Chars.

Lemma append_nil_r (s : string) : s +++ "" = s.
Proof. induction s as [|c s IH]; simpl; [reflexivity | now rewrite IH]. Qed.

Lemma append_assoc (a b c : string) : (a +++ b) +++ c = a +++ b +++ c.
Proof. induction a as [|x a IH]; simpl; [reflexivity | now rewrite IH]. Qed.

Lemma length_append (a b : string) :
  String.length (a +++ b) = (String.length a + String.length b)%nat.
Proof. induction a as [|x a IH]; simpl; [reflexivity | now rewrite IH]. Qed.

Lemma append_inv_head (a b c : string) : a +++ b = a +++ c -> b = c.
Proof.
  induction a as [|x a IH]; simpl; intros H; [exact H|].
  inversion H; auto.
Qed.

Lemma append_inv_length (a a' b b' : string) :
  String.length a = String.length a' ->
  a +++ b = a' +++ b' -> a = a' /\ b = b'.
Proof.
  revert a'; induction a as [|x a IH]; intros [|x' a'] Hlen H;
    simpl in *; try discriminate.
  - split; [reflexivity | exact H].
  - inversion H; subst. injection Hlen as Hlen.
    destruct (IH a' Hlen H2) as [-> ->]. split; reflexivity.
Qed.

Lemma all_append (P : ascii -> bool) (a b : string) :
  all P (a +++ b) = all P a && all P b.
Proof.
  induction a as [|x a IH]; simpl; [reflexivity|].
  now rewrite IH, andb_assoc.
Qed.

Lemma all_weaken (P R : ascii -> bool) (s : string) :
  (forall c, P c = true -> R c = true) -> all P s = true -> all R s = true.
Proof.
  intros HPR; induction s as [|c s IH]; simpl; [reflexivity|].
  intros H; apply andb_true_iff in H as [Hc Hs].
  now rewrite (HPR c Hc), (IH Hs).
Qed.

(** Two strings that agree up to the first occurrence of a separator
    [c] agree on both sides of it. *)
Lemma split_at (c : ascii) (P : ascii -> bool) (a a' r r' : string) :
  P c = false -> all P a = true -> all P a' = true ->
  a +++ String c r = a' +++ String c r' -> a = a' /\ r = r'.
Proof.
  intros Hc; revert a'; induction a as [|x a IH]; intros [|x' a'] Ha Ha' H;
    simpl in *.
  - inversion H; auto.
  - inversion H; subst. rewrite Hc in Ha'. discriminate.
  - inversion H; subst. rewrite Hc in Ha. discriminate.
  - apply andb_true_iff in Ha as [_ Ha]. apply andb_true_iff in Ha' as [_ Ha'].
    inversion H; subst. destruct (IH a' Ha Ha' H2) as [-> ->]. auto.
Qed.

(** [join] with a one-character separator is injective on non-empty
    lists of strings that do not contain the separator. *)
Lemma join_inj (c : ascii) (P : ascii -> bool) (l l' : list string) :
  P c = false ->
  Forall (fun s => all P s = true) l ->
  Forall (fun s => all P s = true) l' ->
  l <> [] -> l' <> [] ->
  JS.join (String c "") l = JS.join (String c "") l' -> l = l'.
Proof.
  intros Hc Hl; revert l'; induction Hl as [|x l Hx Hl IH];
    intros l' Hl' Hne Hne' H; [congruence|].
  destruct Hl' as [|x' l' Hx' Hl']; [congruence|].
  destruct l as [|y l], l' as [|y' l'].
  - simpl in H. now subst.
  - exfalso. change (x = x' +++ String c (JS.join (String c "") (y' :: l'))) in H.
    subst x. rewrite all_append in Hx. simpl in Hx. rewrite Hc in Hx.
    rewrite andb_false_r in Hx. discriminate.
  - exfalso. change (x +++ String c (JS.join (String c "") (y :: l)) = x') in H.
    subst x'. rewrite all_append in Hx'. simpl in Hx'. rewrite Hc in Hx'.
    rewrite andb_false_r in Hx'. discriminate.
  - change (x +++ String c (JS.join (String c "") (y :: l))
            = x' +++ String c (JS.join (String c "") (y' :: l'))) in H.
    destruct (split_at c P _ _ _ _ Hc Hx Hx' H) as [-> Hr].
    f_equal. apply IH; auto; discriminate.
Qed.

Lemma all_join (P : ascii -> bool) (sep : string) (l : list string) :
  all P sep = true -> Forall (fun s => all P s = true) l ->
  all P (JS.join sep l) = true.
Proof.
  intros Hsep Hl; induction Hl as [|x l Hx Hl IH]; [reflexivity|].
  destruct l as [|y l]; [exact Hx|].
  change (all P (x +++ sep +++ JS.join sep (y :: l)) = true).
  now rewrite !all_append, Hx, Hsep, IH.
Qed.

Lemma substring_all (s : string) : substring 0 (String.length s) s = s.
Proof.
  induction s as [|c s IHs]; [reflexivity|].
  cbn [String.length substring]. now rewrite IHs.
Qed.

Lemma substring_split (i : nat) (s : string) :
  (i <= String.length s)%nat ->
  substring 0 i s +++ substring i (String.length s - i) s = s.
Proof.
  revert s; induction i as [|i IH]; intros s Hi.
  - rewrite Nat.sub_0_r. clear Hi.
    replace (substring 0 0 s) with "" by (destruct s; reflexivity).
    apply substring_all.
  - destruct s as [|c s]; simpl in *; [lia|].
    rewrite IH by lia. reflexivity.
Qed.

End Str.

(** ** Numbers: decimal digits and [toFixed] *)

Module Num.

Import JS Chars.

Lemma nat_of_digitChar (d : Z) :
  (0 <= d < 10)%Z -> nat_of_ascii (digitChar d) = (48 + Z.to_nat d)%nat.
Proof.
  intros Hd. unfold digitChar. apply nat_ascii_embedding. lia.
Qed.

Lemma digitChar_isDigit (d : Z) :
  (0 <= d < 10)%Z -> isDigit (digitChar d) = true.
Proof.
  intros Hd. unfold isDigit. rewrite nat_of_digitChar by exact Hd.
  apply andb_true_iff; split; apply Nat.leb_le; lia.
Qed.

Lemma digitValue_digitChar (d : Z) :
  (0 <= d < 10)%Z -> digitValue (digitChar d) = d.
Proof.
  intros Hd. unfold digitValue. rewrite nat_of_digitChar by exact Hd. lia.
Qed.

Lemma value_append (a b : string) :
  value (a +++ b)
  = (value a * 10 ^ Z.of_nat (String.length b) + value b)%Z.
Proof.
  induction a as [|c a IH]; simpl; [reflexivity|].
  rewrite IH, Str.length_append, Nat2Z.inj_add, Z.pow_add_r by lia. ring.
Qed.

Lemma value_zeros (k : nat) : value (zeros k) = 0%Z.
Proof. induction k as [|k IH]; simpl; [reflexivity | now rewrite IH]. Qed.

Lemma length_zeros (k : nat) : String.length (zeros k) = k.
Proof. induction k as [|k IH]; simpl; [reflexivity | now rewrite IH]. Qed.

Lemma all_zeros (k : nat) : Chars.all isDigit (zeros k) = true.
Proof. induction k as [|k IH]; simpl; [reflexivity | exact IH]. Qed.

Lemma digitsAux_value (fuel : nat) :
  forall n acc, (0 <= n < 2 ^ Z.of_nat fuel)%Z -> (0 < fuel)%nat ->
  value (digitsAux fuel n acc)
  = (n * 10 ^ Z.of_nat (String.length acc) + value acc)%Z.
Proof.
  induction fuel as [|fuel IH]; intros n acc Hn Hf; [lia|].
  cbn [digitsAux].
  assert (Hmod : (0 <= n mod 10 < 10)%Z) by (apply Z.mod_pos_bound; lia).
  pose proof (Z.div_mod n 10 ltac:(lia)) as Hdm.
  destruct (Z.eqb_spec (n / 10) 0) as [Hz|Hz].
  - cbn [value]. rewrite digitValue_digitChar by exact Hmod.
    rewrite Hz in Hdm. lia.
  - rewrite Nat2Z.inj_succ, Z.pow_succ_r in Hn by lia.
    assert (Hq : (0 < n / 10)%Z).
    { pose proof (Z.div_pos n 10 ltac:(lia) ltac:(lia)). lia. }
    assert (fuel <> 0)%nat.
    { intros ->. change (2 ^ Z.of_nat 0)%Z with 1%Z in Hn. lia. }
    rewrite IH; [|split; [lia|] | lia].
    + cbn [value String.length]. rewrite digitValue_digitChar by exact Hmod.
      rewrite Nat2Z.inj_succ, Z.pow_succ_r by lia. lia.
    + apply Z.div_lt_upper_bound; lia.
Qed.

Lemma digitsAux_all (fuel : nat) :
  forall n acc, (0 <= n)%Z -> Chars.all isDigit acc = true ->
  Chars.all isDigit (digitsAux fuel n acc) = true.
Proof.
  induction fuel as [|fuel IH]; intros n acc Hn Hacc; [exact Hacc|].
  cbn [digitsAux].
  assert (Hmod : (0 <= n mod 10 < 10)%Z) by (apply Z.mod_pos_bound; lia).
  assert (Hacc' : Chars.all isDigit (String (digitChar (n mod 10)) acc) = true).
  { cbn [Chars.all]. now rewrite digitChar_isDigit, Hacc. }
  destruct (n / 10 =? 0)%Z; [exact Hacc'|].
  apply IH; [apply Z.div_pos; lia | exact Hacc'].
Qed.

Lemma digitsAux_length (fuel : nat) :
  forall n acc, (0 < fuel)%nat ->
  (String.length acc < String.length (digitsAux fuel n acc))%nat.
Proof.
  induction fuel as [|fuel IH]; intros n acc Hf; [lia|].
  cbn [digitsAux]. destruct (n / 10 =? 0)%Z; [cbn [String.length]; lia|].
  destruct fuel as [|fuel]; [cbn [digitsAux String.length]; lia|].
  specialize (IH (n / 10)%Z (String (digitChar (n mod 10)) acc) ltac:(lia)).
  cbn [String.length] in IH. lia.
Qed.

Lemma decimalDigits_value (n : Z) :
  (0 <= n)%Z -> value (decimalDigits n) = n.
Proof.
  intros Hn. unfold decimalDigits.
  rewrite digitsAux_value; [cbn [value String.length]; lia | | lia].
  rewrite Nat2Z.inj_succ, Z2Nat.id by apply Z.log2_nonneg.
  destruct (Z.eq_dec n 0) as [->|Hnz]; [cbn; lia|].
  pose proof (Z.log2_spec n ltac:(lia)). lia.
Qed.

Lemma decimalDigits_all (n : Z) :
  (0 <= n)%Z -> Chars.all isDigit (decimalDigits n) = true.
Proof. intros Hn. apply digitsAux_all; [exact Hn | reflexivity]. Qed.

Lemma decimalDigits_length (n : Z) :
  (0 < String.length (decimalDigits n))%nat.
Proof.
  unfold decimalDigits.
  pose proof (digitsAux_length (S (Z.to_nat (Z.log2 n))) n "" ltac:(lia)).
  lia.
Qed.

Lemma decimalDigits_inj (n n' : Z) :
  (0 <= n)%Z -> (0 <= n')%Z -> decimalDigits n = decimalDigits n' -> n = n'.
Proof.
  intros Hn Hn' H.
  rewrite <- (decimalDigits_value n Hn), <- (decimalDigits_value n' Hn').
  now rewrite H.
Qed.


Lemma toFixed_eq (x : Q) (f : nat) :
  toFixed x f = sign x +++ fixedDigits f (roundScaled f x).
Proof. reflexivity. Qed.

Lemma pow10_pos (f : nat) : (0 < pow10 f)%Z.
Proof. unfold pow10. apply Z.pow_pos_nonneg; lia. Qed.

Lemma pow10_succ (f : nat) : pow10 (S f) = (10 * pow10 f)%Z.
Proof. unfold pow10. rewrite Nat2Z.inj_succ, Z.pow_succ_r by lia. reflexivity. Qed.

Lemma scaled_nonneg (f : nat) (x : Q) :
  (0 <= Qabs x * inject_Z (pow10 f))%Q.
Proof.
  apply Qmult_le_0_compat; [apply Qabs_nonneg|].
  change 0%Q with (inject_Z 0). rewrite <- Zle_Qle.
  pose proof (pow10_pos f). lia.
Qed.

Lemma roundScaled_nonneg (f : nat) (x : Q) : (0 <= roundScaled f x)%Z.
Proof.
  unfold roundScaled. change 0%Z with (Qfloor 0).
  apply Qfloor_resp_le.
  pose proof (scaled_nonneg f x) as H.
  apply Qle_trans with (Qabs x * inject_Z (pow10 f))%Q; [exact H|].
  rewrite <- (Qplus_0_r (Qabs x * inject_Z (pow10 f))) at 1.
  apply Qplus_le_r. discriminate.
Qed.

Lemma length_substring_0 (i : nat) (s : string) :
  (i <= String.length s)%nat -> String.length (substring 0 i s) = i.
Proof.
  revert s; induction i as [|i IH]; intros [|c s] Hi;
    cbn [String.length substring] in *; try lia.
  rewrite IH by lia. reflexivity.
Qed.

Lemma fixedDigits_shape (f : nat) (n : Z) :
  (0 <= n)%Z -> f <> 0%nat ->
  exists a b,
    fixedDigits f n = a +++ "." +++ b
    /\ Chars.all isDigit a = true /\ Chars.all isDigit b = true
    /\ a <> "" /\ value (a +++ b) = n.
Proof.
  intros Hn Hf. unfold fixedDigits.
  destruct (Nat.eqb_spec f 0) as [|_]; [contradiction|].
  pose proof (decimalDigits_all n Hn) as Hall.
  pose proof (decimalDigits_value n Hn) as Hval.
  pose proof (decimalDigits_length n) as Hlen.
  set (m := decimalDigits n) in *. set (k := String.length m) in *.
  set (m' := if (k <=? f)%nat then zeros (f + 1 - k) +++ m else m).
  set (k' := if (k <=? f)%nat then (f + 1)%nat else k).
  assert (Hk' : String.length m' = k' /\ (f < k')%nat).
  { subst m' k'. destruct (Nat.leb_spec k f).
    - rewrite Str.length_append, length_zeros. fold k. lia.
    - fold k. lia. }
  assert (Hall' : Chars.all isDigit m' = true).
  { subst m'. destruct (k <=? f)%nat; [|exact Hall].
    now rewrite Str.all_append, all_zeros, Hall. }
  assert (Hval' : value m' = n).
  { subst m'. destruct (k <=? f)%nat; [|exact Hval].
    rewrite value_append, value_zeros, Hval. lia. }
  destruct Hk' as [Hlen' Hlt].
  pose proof (Str.substring_split (k' - f) m' ltac:(lia)) as Hsplit.
  replace (String.length m' - (k' - f))%nat with f in Hsplit by lia.
  exists (substring 0 (k' - f) m'), (substring (k' - f) f m').
  rewrite Hsplit. rewrite <- Hsplit, Str.all_append in Hall'.
  apply andb_true_iff in Hall' as [Ha Hb].
  repeat split; auto.
  intros Hempty.
  pose proof (length_substring_0 (k' - f) m' ltac:(lia)) as Hla.
  rewrite Hempty in Hla. cbn in Hla. lia.
Qed.

Lemma fixedDigits_inj (f : nat) (n n' : Z) :
  (0 <= n)%Z -> (0 <= n')%Z -> fixedDigits f n = fixedDigits f n' -> n = n'.
Proof.
  intros Hn Hn' H. destruct (Nat.eq_dec f 0) as [->|Hf].
  - apply decimalDigits_inj; assumption.
  - destruct (fixedDigits_shape f n Hn Hf) as (a & b & E & Ha & _ & _ & V).
    destruct (fixedDigits_shape f n' Hn' Hf) as (a' & b' & E' & Ha' & _ & _ & V').
    rewrite E, E' in H.
    destruct (Str.split_at "." isDigit a a' b b' eq_refl Ha Ha' H) as [-> ->].
    congruence.
Qed.

Lemma fixedDigits_startsWithDigit (f : nat) (n : Z) :
  (0 <= n)%Z -> startsWithDigit (fixedDigits f n) = true.
Proof.
  intros Hn. destruct (Nat.eq_dec f 0) as [->|Hf].
  - pose proof (decimalDigits_all n Hn) as Hall.
    pose proof (decimalDigits_length n) as Hlen.
    change (fixedDigits 0 n) with (decimalDigits n).
    destruct (decimalDigits n) as [|c s]; cbn in *; [lia|].
    now apply andb_true_iff in Hall as [Hc _].
  - destruct (fixedDigits_shape f n Hn Hf) as (a & b & E & Ha & _ & Hne & _).
    rewrite E. destruct a as [|c a]; [congruence|].
    cbn in *. now apply andb_true_iff in Ha as [Hc _].
Qed.

Lemma isDigit_isNumeric (c : ascii) : isDigit c = true -> isNumeric c = true.
Proof. unfold isNumeric. now intros ->. Qed.

Lemma fixedDigits_numeric (f : nat) (n : Z) :
  (0 <= n)%Z -> Chars.all isNumeric (fixedDigits f n) = true.
Proof.
  intros Hn. destruct (Nat.eq_dec f 0) as [->|Hf].
  - apply Str.all_weaken with (P := isDigit); [exact isDigit_isNumeric|].
    now apply decimalDigits_all.
  - destruct (fixedDigits_shape f n Hn Hf) as (a & b & E & Ha & Hb & _ & _).
    rewrite E, !Str.all_append.
    rewrite (Str.all_weaken _ _ a isDigit_isNumeric Ha).
    rewrite (Str.all_weaken _ _ b isDigit_isNumeric Hb). reflexivity.
Qed.

Lemma toFixed_numeric (x : Q) (f : nat) :
  Chars.all isNumeric (toFixed x f) = true.
Proof.
  rewrite toFixed_eq, Str.all_append.
  rewrite fixedDigits_numeric by apply roundScaled_nonneg.
  unfold sign. destruct (isNegative x); reflexivity.
Qed.

(** Equal output of [toFixed] means equal sign and equal rounded
    integer. *)
Lemma toFixed_inj (x y : Q) (f : nat) :
  toFixed x f = toFixed y f ->
  isNegative x = isNegative y /\ roundScaled f x = roundScaled f y.
Proof.
  rewrite !toFixed_eq. intros H.
  pose proof (fixedDigits_startsWithDigit f _ (roundScaled_nonneg f x)) as Dx.
  pose proof (fixedDigits_startsWithDigit f _ (roundScaled_nonneg f y)) as Dy.
  unfold sign in H.
  destruct (isNegative x), (isNegative y); cbn [append] in H.
  - inversion H as [H']. split; [reflexivity|].
    eapply fixedDigits_inj; eauto using roundScaled_nonneg.
  - rewrite <- H in Dy. discriminate.
  - rewrite H in Dx. discriminate.
  - split; [reflexivity|].
    eapply fixedDigits_inj; eauto using roundScaled_nonneg.
Qed.


(** [n = floor (a + 1/2)] and its two bounds. *)
Lemma roundScaled_bounds (f : nat) (x : Q) :
  (inject_Z (roundScaled f x) <= Qabs x * inject_Z (pow10 f) + (1 # 2))%Q
  /\ (Qabs x * inject_Z (pow10 f) + (1 # 2)
      < inject_Z (roundScaled f x) + 1)%Q.
Proof.
  unfold roundScaled. split; [apply Qfloor_le|].
  set (q := (Qabs x * inject_Z (pow10 f) + (1 # 2))%Q).
  pose proof (Qlt_floor q) as H.
  rewrite inject_Z_plus in H. exact H.
Qed.

Lemma inject_pow10_succ (f : nat) :
  (inject_Z (pow10 (S f)) == 10 * inject_Z (pow10 f))%Q.
Proof. rewrite pow10_succ, inject_Z_mult. reflexivity. Qed.

(** Two numbers that round to the same integer at [f + 1] digits round
    to integers at most one apart at [f] digits. *)
Lemma roundScaled_coarser (f : nat) (x y : Q) :
  roundScaled (S f) x = roundScaled (S f) y ->
  (Z.abs (roundScaled f x - roundScaled f y) <= 1)%Z.
Proof.
  intros H.
  destruct (roundScaled_bounds (S f) x) as [Lx Ux].
  destruct (roundScaled_bounds (S f) y) as [Ly Uy].
  destruct (roundScaled_bounds f x) as [lx ux].
  destruct (roundScaled_bounds f y) as [ly uy].
  rewrite H in Lx, Ux. rewrite inject_pow10_succ in Lx, Ux, Ly, Uy.
  set (N := inject_Z (roundScaled (S f) y)) in *.
  set (a := (Qabs x * inject_Z (pow10 f))%Q) in *.
  set (b := (Qabs y * inject_Z (pow10 f))%Q) in *.
  assert (Ea : (Qabs x * (10 * inject_Z (pow10 f)) == 10 * a)%Q)
    by (subst a; ring).
  assert (Eb : (Qabs y * (10 * inject_Z (pow10 f)) == 10 * b)%Q)
    by (subst b; ring).
  rewrite Ea in Lx, Ux. rewrite Eb in Ly, Uy.
  assert (H1 : (inject_Z (roundScaled f x) < inject_Z (roundScaled f y + 2))%Q).
  { rewrite inject_Z_plus. change (inject_Z 2) with 2%Q. lra. }
  assert (H2 : (inject_Z (roundScaled f y) < inject_Z (roundScaled f x + 2))%Q).
  { rewrite inject_Z_plus. change (inject_Z 2) with 2%Q. lra. }
  rewrite <- Zlt_Qlt in H1, H2. lia.
Qed.

End Num.

(** ** The structure of a fingerprint *)

Module Fingerprint.

Import JS Chars Num.

(** The loops that [push] one string per element build the [map]. *)
Lemma push_loop {A : Type} (g : A -> string) (l : list A) (acc : list string) :
  fold_left (fun acc x => acc ++ [g x]) l acc = acc ++ map g l.
Proof.
  revert acc; induction l as [|x l IH]; intros acc; simpl.
  - now rewrite app_nil_r.
  - now rewrite IH, <- app_assoc.
Qed.

Lemma pathToHash_unfold (p : nat) (path : PageItem) :
  pathToHash p path =
  match pointsOf path with
  | [] => ""
  | pts => join ";" (map (pointHash p) pts) +++ "|" +++ marker path
  end.
Proof.
  unfold pathToHash, pointsOf, marker.
  destruct (pathPoints path) as [[|pt pts]|]; try reflexivity.
  now rewrite push_loop.
Qed.

Lemma compoundPathToHash_unfold (p : nat) (compoundPath : PageItem) :
  compoundPathToHash p compoundPath =
  match pathItems compoundPath with
  | None | Some [] => ""
  | Some items => join "|" (sort (map (pathToHash p) items))
  end.
Proof.
  unfold compoundPathToHash.
  destruct (pathItems compoundPath) as [[|x xs]|]; try reflexivity.
  now rewrite push_loop.
Qed.

Lemma numeric_field (c : ascii) : isNumeric c = true -> isFieldChar c = true.
Proof.
  destruct c as [b0 b1 b2 b3 b4 b5 b6 b7].
  destruct b0, b1, b2, b3, b4, b5, b6, b7; vm_compute; congruence.
Qed.

Lemma field_token (c : ascii) : isFieldChar c = true -> isTokenChar c = true.
Proof.
  unfold isFieldChar, isTokenChar. intros H.
  apply andb_true_iff in H as [H H3]. apply andb_true_iff in H as [_ H2].
  now rewrite H2, H3.
Qed.

Lemma token_barFree (c : ascii) : isTokenChar c = true -> isBarFree c = true.
Proof.
  unfold isTokenChar, isBarFree. intros H.
  now apply andb_true_iff in H as [_ H].
Qed.

Lemma toFixed_field (x : Q) (p : nat) : Chars.all isFieldChar (toFixed x p) = true.
Proof.
  apply Str.all_weaken with (P := isNumeric); [exact numeric_field|].
  apply toFixed_numeric.
Qed.

Lemma PointType_field (t : PointType) :
  Chars.all isFieldChar (PointType_toString t) = true.
Proof. destruct t; reflexivity. Qed.

Lemma PointType_toString_inj (t t' : PointType) :
  PointType_toString t = PointType_toString t' -> t = t'.
Proof. destruct t, t'; cbn; congruence. Qed.

Lemma fields_field (p : nat) (pt : PathPoint) :
  Forall (fun s => Chars.all isFieldChar s = true) (fields p pt).
Proof.
  unfold fields.
  repeat (apply Forall_cons; [first [apply toFixed_field | apply PointType_field]|]).
  apply Forall_nil.
Qed.

Lemma pointHash_token (p : nat) (pt : PathPoint) :
  Chars.all isTokenChar (pointHash p pt) = true.
Proof.
  change (pointHash p pt) with (join "," (fields p pt)).
  apply Str.all_join; [reflexivity|].
  eapply Forall_impl; [|apply fields_field].
  intros s. apply Str.all_weaken. exact field_token.
Qed.

Lemma pointHash_inj (p : nat) (a b : PathPoint) :
  pointHash p a = pointHash p b -> fields p a = fields p b.
Proof.
  change (pointHash p a) with (join "," (fields p a)).
  change (pointHash p b) with (join "," (fields p b)).
  apply Str.join_inj with (P := isFieldChar);
    [reflexivity | apply fields_field | apply fields_field
    | discriminate | discriminate].
Qed.

Lemma joined_barFree (p : nat) (pts : list PathPoint) :
  Chars.all isBarFree (join ";" (map (pointHash p) pts)) = true.
Proof.
  apply Str.all_join; [reflexivity|].
  apply Forall_forall. intros s Hs. apply in_map_iff in Hs as (pt & <- & _).
  apply Str.all_weaken with (P := isTokenChar); [exact token_barFree|].
  apply pointHash_token.
Qed.

(** A fingerprint determines the sequence of point tokens and, when
    there is a point, the closed flag. *)
Lemma pathToHash_inj (p : nat) (s1 s2 : PageItem) :
  pathToHash p s1 = pathToHash p s2 ->
  map (pointHash p) (pointsOf s1) = map (pointHash p) (pointsOf s2)
  /\ (pointsOf s1 <> [] -> closed s1 = closed s2).
Proof.
  rewrite !pathToHash_unfold.
  destruct (pointsOf s1) as [|a1 l1] eqn:E1, (pointsOf s2) as [|a2 l2] eqn:E2.
  - intros _. split; [reflexivity | congruence].
  - intros H. exfalso. symmetry in H.
    destruct (join ";" (map (pointHash p) (a2 :: l2))); discriminate.
  - intros H. exfalso.
    destruct (join ";" (map (pointHash p) (a1 :: l1))); discriminate.
  - intros H.
    apply (Str.split_at "|" isBarFree) in H;
      [|reflexivity | apply joined_barFree | apply joined_barFree].
    destruct H as [HJ HM]. split.
    + apply Str.join_inj with (P := isTokenChar) in HJ; try discriminate;
        [exact HJ | reflexivity | |];
        apply Forall_forall; intros s Hs;
        apply in_map_iff in Hs as (pt & <- & _); apply pointHash_token.
    + intros _. unfold marker in HM.
      destruct (closed s1), (closed s2); try reflexivity; discriminate.
Qed.

Lemma pathToHash_nonempty (p : nat) (path : PageItem) :
  pointsOf path <> [] -> pathToHash p path <> "".
Proof.
  rewrite pathToHash_unfold. destruct (pointsOf path) as [|a l]; [congruence|].
  intros _. destruct (join ";" (map (pointHash p) (a :: l))); discriminate.
Qed.

End Fingerprint.

(** ** [sort]: the sorted permutation *)

Module Sorting.

Import JS.

Lemma ascii_compare_Lt_trans_l (a b c : ascii) :
  Ascii.compare a b = Lt -> Ascii.compare b c <> Gt ->
  Ascii.compare a c = Lt.
Proof.
  unfold Ascii.compare. rewrite N.compare_le_iff, !N.compare_lt_iff. lia.
Qed.

Lemma le_trans (a b c : string) : strLe a b -> strLe b c -> strLe a c.
Proof.
  unfold strLe, String.leb.
  revert b c; induction a as [|x a IH]; intros [|y b] [|z c];
    cbn [String.compare]; try congruence.
  destruct (Ascii.compare x y) eqn:Exy; try congruence;
    destruct (Ascii.compare y z) eqn:Eyz; try congruence.
  - apply Ascii.compare_eq_iff in Exy, Eyz. subst.
    assert (E : Ascii.compare z z = Eq)
      by (unfold Ascii.compare; apply N.compare_refl).
    rewrite E. apply IH.
  - apply Ascii.compare_eq_iff in Exy. subst. now rewrite Eyz.
  - apply Ascii.compare_eq_iff in Eyz. subst. now rewrite Exy.
  - rewrite (ascii_compare_Lt_trans_l x y z Exy) by congruence. congruence.
Qed.

Lemma le_total (a b : string) : strLe a b \/ strLe b a.
Proof. apply String.leb_total. Qed.

Lemma le_antisym (a b : string) : strLe a b -> strLe b a -> a = b.
Proof. apply String.leb_antisym. Qed.

Lemma insert_perm (s : string) (l : list string) :
  Permutation (insert s l) (s :: l).
Proof.
  induction l as [|h t IH]; cbn [insert]; [reflexivity|].
  destruct (String.leb s h); [reflexivity|].
  rewrite IH. apply perm_swap.
Qed.

Lemma sort_perm (l : list string) : Permutation (sort l) l.
Proof.
  induction l as [|h t IH]; cbn [sort fold_right]; [reflexivity|].
  fold (sort t). now rewrite insert_perm, IH.
Qed.

Lemma insert_sorted (s : string) (l : list string) :
  StronglySorted strLe l -> StronglySorted strLe (insert s l).
Proof.
  induction 1 as [|h t Ht IH Hh]; cbn [insert].
  - constructor; constructor.
  - destruct (String.leb s h) eqn:E.
    + constructor; [constructor; assumption|].
      constructor; [exact E|].
      eapply Forall_impl; [|exact Hh]. intros x Hx.
      eapply le_trans; [exact E | exact Hx].
    + constructor; [exact IH|].
      assert (Hhs : strLe h s).
      { destruct (le_total s h) as [H|H]; [unfold strLe in H; congruence | exact H]. }
      eapply Permutation_Forall; [symmetry; apply insert_perm|].
      constructor; assumption.
Qed.

Lemma sort_sorted (l : list string) : StronglySorted strLe (sort l).
Proof.
  induction l as [|h t IH]; cbn [sort fold_right]; [constructor|].
  now apply insert_sorted.
Qed.

(** There is one sorted arrangement of a list of strings. *)
Lemma sorted_unique (l1 l2 : list string) :
  StronglySorted strLe l1 -> StronglySorted strLe l2 -> Permutation l1 l2 ->
  l1 = l2.
Proof.
  intros S1; revert l2; induction S1 as [|a l1 S1 IH Ha]; intros l2 S2 P.
  - apply Permutation_nil in P. now subst.
  - destruct S2 as [|b l2 S2 Hb].
    + symmetry in P. apply Permutation_nil in P. discriminate.
    + assert (Hab : strLe a b).
      { assert (In b (a :: l1)) as [->|Hin]
          by (eapply Permutation_in; [symmetry; exact P | now left]).
        - destruct (le_total b b); assumption.
        - rewrite Forall_forall in Ha. now apply Ha. }
      assert (Hba : strLe b a).
      { assert (In a (b :: l2)) as [->|Hin]
          by (eapply Permutation_in; [exact P | now left]).
        - destruct (le_total a a); assumption.
        - rewrite Forall_forall in Hb. now apply Hb. }
      pose proof (le_antisym a b Hab Hba) as ->.
      f_equal. apply IH; [exact S2|]. eapply Permutation_cons_inv; exact P.
Qed.

Lemma sort_permutation_invariant (l l' : list string) :
  Permutation l l' -> sort l = sort l'.
Proof.
  intros P. apply sorted_unique; try apply sort_sorted.
  now rewrite !sort_perm.
Qed.

Lemma sort_repeat (s : string) (n : nat) : sort (repeat s n) = repeat s n.
Proof.
  apply sorted_unique; [apply sort_sorted | | apply sort_perm].
  induction n as [|n IH]; cbn [repeat]; constructor; [exact IH|].
  apply Forall_forall. intros x Hx. apply repeat_spec in Hx. subst x.
  destruct (le_total s s); assumption.
Qed.

End Sorting.

(** ** Keys of the hash tables *)

Module Keys.

Import JS Chars Fingerprint.

(** A non-empty fingerprint holds the separator "|": no key is the name
    of a property that an empty object inherits, so a key is found in
    the table exactly when the script has stored it. *)
Lemma pathToHash_has_bar (p : nat) (path : PageItem) :
  pathToHash p path <> "" -> all isBarFree (pathToHash p path) = false.
Proof.
  rewrite pathToHash_unfold. destruct (pointsOf path) as [|a l]; [congruence|].
  intros _. rewrite Str.all_append. cbn [append all isBarFree].
  apply andb_false_r.
Qed.

Lemma join_has_bar (l : list string) :
  Forall (fun s => s <> "" -> all isBarFree s = false) l ->
  join "|" l <> "" -> all isBarFree (join "|" l) = false.
Proof.
  intros H. destruct H as [|x l Hx Hl]; [intros E; now elim E|].
  destruct l as [|y l]; [exact Hx|]. intros _.
  change (join "|" (x :: y :: l)) with (x +++ "|" +++ join "|" (y :: l)).
  rewrite Str.all_append. cbn [append all isBarFree]. apply andb_false_r.
Qed.

Lemma compoundPathToHash_has_bar (p : nat) (c : PageItem) :
  compoundPathToHash p c <> "" ->
  all isBarFree (compoundPathToHash p c) = false.
Proof.
  rewrite compoundPathToHash_unfold.
  destruct (pathItems c) as [[|x xs]|]; try congruence.
  apply join_has_bar.
  eapply Permutation_Forall; [symmetry; apply Sorting.sort_perm|].
  apply Forall_forall. intros s Hs. apply in_map_iff in Hs as (y & <- & _).
  apply pathToHash_has_bar.
Qed.

End Keys.

(** ** Grouping by hash *)

Module Grouping.

Section WithHash.

Variable hashOf : PageItem -> string.

Lemma truthy_false (s : string) : JS.truthy s = false <-> s = "".
Proof. destruct s; cbn; split; congruence. Qed.

Lemma lookup_None (h : string) (t : HashTable) :
  lookup h t = None <-> ~ In h (map fst t).
Proof.
  induction t as [|[k v] t IH]; cbn [lookup map fst In]; [tauto|].
  destruct (String.eqb_spec k h) as [->|Hne].
  - split; [discriminate | tauto].
  - rewrite IH. tauto.
Qed.

Lemma lookup_Some (h : string) (t : HashTable) (g : list PageItem) :
  lookup h t = Some g -> In (h, g) t.
Proof.
  induction t as [|[k v] t IH]; cbn [lookup In]; [discriminate|].
  destruct (String.eqb_spec k h) as [->|Hne].
  - intros [= ->]. now left.
  - intros H. right. now apply IH.
Qed.

Lemma push_keys (h : string) (x : PageItem) (t : HashTable) :
  map fst (push h x t) = map fst t.
Proof.
  induction t as [|[k v] t IH]; cbn [push map fst]; [reflexivity|].
  destruct (String.eqb k h); cbn [map fst]; [reflexivity | now rewrite IH].
Qed.

Lemma push_app (h : string) (x : PageItem) (t1 t2 : HashTable) :
  ~ In h (map fst t1) -> push h x (t1 ++ t2) = t1 ++ push h x t2.
Proof.
  induction t1 as [|[k v] t1 IH]; cbn [push map fst In app]; [reflexivity|].
  intros Hn. destruct (String.eqb_spec k h) as [->|Hne]; [tauto|].
  rewrite IH by tauto. reflexivity.
Qed.

Lemma push_In (h : string) (x : PageItem) (t : HashTable)
    (k : string) (g : list PageItem) :
  NoDup (map fst t) ->
  In (k, g) (push h x t) <->
  (k <> h /\ In (k, g) t)
  \/ (k = h /\ exists g0, In (h, g0) t /\ g = g0 ++ [x]).
Proof.
  induction t as [|[k0 v] t IH]; cbn [push map fst In].
  - intros _. split; [tauto|]. intros [[_ []]|[_ (g0 & [] & _)]].
  - intros ND. inversion ND as [|? ? Hnin ND']; subst.
    destruct (String.eqb_spec k0 h) as [->|Hne]; cbn [In].
    + split.
      * intros [[= <- <-]|Hin].
        -- right. split; [reflexivity|]. exists v. split; [now left | reflexivity].
        -- left. split; [|now right].
           intros ->. apply Hnin. apply in_map_iff. now exists (h, g).
      * intros [[Hk [[= -> ->]|Hin]]|[-> (g0 & [[= ->]|Hin] & ->)]].
        -- congruence.
        -- now right.
        -- now left.
        -- exfalso. apply Hnin. apply in_map_iff. now exists (h, g0).
    + rewrite (IH ND'). split.
      * intros [[= <- <-]|[[Hk Hin]|[-> (g0 & Hin & ->)]]].
        -- left. split; [exact Hne | now left].
        -- left. split; [exact Hk | now right].
        -- right. split; [reflexivity|]. exists g0. split; [now right | reflexivity].
      * intros [[Hk [[= -> ->]|Hin]]|[-> (g0 & [[= -> ->]|Hin] & ->)]].
        -- now left.
        -- right. left. tauto.
        -- congruence.
        -- right. right. split; [reflexivity|]. now exists g0.
Qed.

Lemma members_snoc (k : string) (items : list PageItem) (x : PageItem) :
  members hashOf k (items ++ [x])
  = members hashOf k items ++ (if keyIs hashOf k x then [x] else []).
Proof.
  unfold members. rewrite filter_app. cbn [filter].
  destruct (keyIs hashOf k x); reflexivity.
Qed.

Lemma members_key (k : string) (items : list PageItem) (x : PageItem) :
  In x (members hashOf k items) -> hashOf x = k /\ In x items.
Proof.
  unfold members. rewrite filter_In. intros [Hin Hk].
  split; [now apply String.eqb_eq | exact Hin].
Qed.

Lemma groupStep_grouped (items : list PageItem) (table : HashTable)
    (x : PageItem) :
  grouped hashOf items table ->
  grouped hashOf (items ++ [x]) (groupStep hashOf table x).
Proof.
  intros (ND & Hentries & Hkeys). unfold groupStep.
  destruct (JS.truthy (hashOf x)) eqn:Htruthy; cbn [negb].
  2:{ apply truthy_false in Htruthy.
      split; [exact ND|]. split.
      - intros k g Hin. destruct (Hentries k g Hin) as (Hk & Hg & ->).
        repeat split; auto. rewrite members_snoc. unfold keyIs.
        destruct (String.eqb_spec (hashOf x) k); [congruence|].
        now rewrite app_nil_r.
      - intros y Hy Hhy. apply in_app_iff in Hy as [Hy|[->|[]]];
          [now apply Hkeys | congruence]. }
  assert (Hne : hashOf x <> "").
  { intros E. apply truthy_false in E. congruence. }
  set (h := hashOf x) in *.
  destruct (lookup h table) as [g0|] eqn:Hl.
  - apply lookup_Some in Hl.
    split; [now rewrite push_keys|]. split.
    + intros k g Hin. apply push_In in Hin; [|exact ND].
      destruct Hin as [[Hk Hin]|[-> (g1 & Hin & ->)]].
      * destruct (Hentries k g Hin) as (Hk' & Hg & ->).
        repeat split; auto. rewrite members_snoc. unfold keyIs. fold h.
        destruct (String.eqb_spec h k); [congruence|].
        now rewrite app_nil_r.
      * destruct (Hentries h g1 Hin) as (Hk' & Hg & ->).
        repeat split; auto.
        -- intros E. apply app_eq_nil in E as [_ E]. discriminate.
        -- rewrite members_snoc. unfold keyIs. fold h.
           now rewrite String.eqb_refl.
    + intros y Hy Hhy. rewrite push_keys.
      apply in_app_iff in Hy as [Hy|[<-|[]]]; [now apply Hkeys|].
      apply in_map_iff. now exists (h, g0).
  - apply lookup_None in Hl.
    rewrite push_app by exact Hl. cbn [push]. rewrite String.eqb_refl.
    assert (Hnone : members hashOf h items = []).
    { destruct (members hashOf h items) as [|y l] eqn:E; [reflexivity|].
      exfalso. assert (Hy : In y (members hashOf h items)) by (rewrite E; now left).
      apply members_key in Hy as [Hyk Hy]. apply Hl. rewrite <- Hyk.
      apply Hkeys; [exact Hy | congruence]. }
    split; [|split].
    + rewrite map_app. cbn [map fst]. apply NoDup_app; [exact ND | | ].
      * constructor; [intros [] | constructor].
      * intros k Hk [<-|[]]. contradiction.
    + intros k g Hin. apply in_app_iff in Hin as [Hin|[[= <- <-]|[]]].
      * destruct (Hentries k g Hin) as (Hk' & Hg & ->).
        repeat split; auto. rewrite members_snoc. unfold keyIs. fold h.
        destruct (String.eqb_spec h k) as [<-|]; [|now rewrite app_nil_r].
        exfalso. apply Hl. apply in_map_iff. now exists (h, members hashOf h items).
      * repeat split; [exact Hne | discriminate |].
        rewrite members_snoc, Hnone. unfold keyIs. fold h.
        now rewrite String.eqb_refl.
    + intros y Hy Hhy. rewrite map_app. apply in_app_iff.
      apply in_app_iff in Hy as [Hy|[<-|[]]]; [left; now apply Hkeys|].
      right. now left.
Qed.

Lemma groupByHash_snoc (items : list PageItem) (x : PageItem) :
  groupByHash hashOf (items ++ [x])
  = groupStep hashOf (groupByHash hashOf items) x.
Proof. unfold groupByHash. now rewrite fold_left_app. Qed.

(** The table the grouping loop builds: one entry per non-empty key, in
    order of first occurrence, holding the items of that key in
    collection order. *)
Lemma groupByHash_grouped (items : list PageItem) :
  grouped hashOf items (groupByHash hashOf items).
Proof.
  induction items as [|x items IH] using rev_ind.
  - split; [constructor|]. split; [intros k g []|intros x []].
  - rewrite groupByHash_snoc. now apply groupStep_grouped.
Qed.

End WithHash.

End Grouping.

(** ** The removal loops *)

Module Dedup.

Import Grouping.

Section WithHash.

Variable hashOf : PageItem -> string.

Lemma keyIs_filter_same (k : string) (g : list PageItem) :
  (forall x, In x g -> hashOf x = k) -> filter (keyIs hashOf k) g = g.
Proof.
  induction g as [|x g IH]; intros H; cbn [filter]; [reflexivity|].
  unfold keyIs at 1. rewrite (H x (or_introl eq_refl)), String.eqb_refl.
  f_equal. apply IH. intros y Hy. apply H. now right.
Qed.

Lemma keyIs_filter_other (k k' : string) (g : list PageItem) :
  k' <> k -> (forall x, In x g -> hashOf x = k') ->
  filter (keyIs hashOf k) g = [].
Proof.
  intros Hne. induction g as [|x g IH]; intros H; cbn [filter]; [reflexivity|].
  unfold keyIs at 1. rewrite (H x (or_introl eq_refl)).
  destruct (String.eqb_spec k' k); [contradiction|].
  apply IH. intros y Hy. apply H. now right.
Qed.

Lemma In_skipn_1 {A : Type} (x : A) (g : list A) :
  In x (skipn 1 g) -> In x g.
Proof. destruct g; cbn; [tauto | now right]. Qed.

(** Over a table whose entries hold the members of their keys, the
    removed items of key [k] are the members of [k] past the first. *)
Lemma tails_of_key (items : list PageItem) (k : string) (t : HashTable) :
  NoDup (map fst t) ->
  (forall k' g, In (k', g) t -> g = members hashOf k' items) ->
  filter (keyIs hashOf k) (flat_map (fun g => skipn 1 (snd g)) t)
  = if in_dec string_dec k (map fst t)
    then skipn 1 (members hashOf k items) else [].
Proof.
  induction t as [|[k' g] t IH]; intros ND Hent; [reflexivity|].
  cbn [map fst] in ND. inversion ND as [|? ? Hnin ND']; subst.
  cbn [flat_map snd]. rewrite filter_app.
  assert (Hg : g = members hashOf k' items) by (apply Hent; now left).
  assert (Hkeys : forall x, In x (skipn 1 g) -> hashOf x = k').
  { intros x Hx. apply In_skipn_1 in Hx. rewrite Hg in Hx.
    now apply members_key in Hx. }
  rewrite IH; [|exact ND' | intros; apply Hent; now right].
  destruct (string_dec k' k) as [->|Hne].
  - rewrite keyIs_filter_same by exact Hkeys.
    destruct (in_dec string_dec k (map fst t)); [contradiction|].
    destruct (in_dec string_dec k (map fst ((k, g) :: t))) as [_|Hn];
      [|exfalso; apply Hn; now left].
    now rewrite app_nil_r, Hg.
  - rewrite (keyIs_filter_other k k') by assumption. cbn [app].
    destruct (in_dec string_dec k (map fst t)) as [Hi|Hi];
      destruct (in_dec string_dec k (map fst ((k', g) :: t))) as [Hj|Hj];
      try reflexivity.
    + exfalso. apply Hj. now right.
    + exfalso. destruct Hj as [Hj|Hj]; [cbn in Hj; congruence | contradiction].
Qed.

(** In every group with a non-empty key, [remove()] is called on the
    members past the first, in collection order, and on nothing else
    of that key. *)
Lemma duplicates_of_key (items : list PageItem) (k : string) :
  k <> "" ->
  filter (keyIs hashOf k) (duplicates hashOf items)
  = skipn 1 (members hashOf k items).
Proof.
  intros Hk. destruct (groupByHash_grouped hashOf items) as (ND & Hent & Hkeys).
  unfold duplicates. rewrite (tails_of_key items k); [|exact ND|].
  - destruct (in_dec string_dec k (map fst (groupByHash hashOf items)))
      as [_|Hn]; [reflexivity|].
    destruct (members hashOf k items) as [|y l] eqn:E; [reflexivity|].
    exfalso. assert (Hy : In y (members hashOf k items)) by (rewrite E; now left).
    apply members_key in Hy as [Hyk Hy]. apply Hn. rewrite <- Hyk.
    apply Hkeys; [exact Hy | congruence].
  - intros k' g Hin. now destruct (Hent k' g Hin) as (_ & _ & ->).
Qed.

(** Whatever is removed was collected and has a non-empty key. *)
Lemma duplicates_In (items : list PageItem) (x : PageItem) :
  In x (duplicates hashOf items) -> In x items /\ hashOf x <> "".
Proof.
  destruct (groupByHash_grouped hashOf items) as (_ & Hent & _).
  unfold duplicates. rewrite in_flat_map. intros ([k g] & Hin & Hx).
  cbn [snd] in Hx. apply In_skipn_1 in Hx.
  destruct (Hent k g Hin) as (Hk & _ & ->).
  apply members_key in Hx as [Hxk Hx]. split; [exact Hx | congruence].
Qed.



End WithHash.

Lemma removeTargets_app (a b : list Event) :
  removeTargets (a ++ b) = removeTargets a ++ removeTargets b.
Proof. apply flat_map_app. Qed.

Lemma successes_app (a b : list Event) :
  successes (a ++ b) = (successes a + successes b)%nat.
Proof. unfold successes. now rewrite filter_app, length_app. Qed.

Lemma failures_app (a b : list Event) :
  failures (a ++ b) = failures a ++ failures b.
Proof. apply flat_map_app. Qed.

Lemma written_app (a b : list Event) :
  written (a ++ b) = written a ++ written b.
Proof. apply flat_map_app. Qed.

Lemma alerts_app (a b : list Event) : alerts (a ++ b) = alerts a ++ alerts b.
Proof. apply flat_map_app. Qed.

Lemma removalTrace_app (t1 t2 : list PageItem) (e1 e2 : list Event) :
  removalTrace t1 e1 -> removalTrace t2 e2 ->
  removalTrace (t1 ++ t2) (e1 ++ e2).
Proof.
  intros (A1 & B1 & C1 & D1) (A2 & B2 & C2 & D2). unfold removalTrace.
  rewrite removeTargets_app, written_app, failures_app, alerts_app,
    successes_app, !length_app, A1, A2, B1, B2, C1, C2.
  repeat split. lia.
Qed.

Section WithHost.

Variable hostRemove : PageItem -> Document -> Document * option string.

Lemma removeEach_cons (m : PageItem) (rest : list PageItem) (count : nat)
    (w : World) :
  removeEach hostRemove (m :: rest) count w =
  match hostRemove m (document w) with
  | (doc, None) =>
      removeEach hostRemove rest (S count)
        (mkWorld doc (events w ++ [EvRemove m None]))
  | (doc, Some e) =>
      removeEach hostRemove rest count
        (mkWorld doc ((events w ++ [EvRemove m (Some e)]) ++ [EvWriteln e]))
  end.
Proof.
  cbn [removeEach]. unfold bind, remove.
  destruct (hostRemove m (document w)) as [doc [e|]]; reflexivity.
Qed.

Lemma removeDuplicates_cons (k : string) (g : list PageItem)
    (table : HashTable) (count : nat) (w : World) :
  removeDuplicates hostRemove ((k, g) :: table) count w =
  removeDuplicates hostRemove table
    (fst (removeEach hostRemove (skipn 1 g) count w))
    (snd (removeEach hostRemove (skipn 1 g) count w)).
Proof.
  cbn [removeDuplicates]. unfold bind.
  destruct (removeEach hostRemove (skipn 1 g) count w); reflexivity.
Qed.

Lemma removeEach_spec (members : list PageItem) :
  forall count w,
  exists evs,
    events (snd (removeEach hostRemove members count w)) = events w ++ evs
    /\ fst (removeEach hostRemove members count w)
       = (count + successes evs)%nat
    /\ removalTrace members evs.
Proof.
  induction members as [|m rest IH]; intros count w.
  - exists []. cbn. rewrite app_nil_r. repeat split; lia.
  - rewrite removeEach_cons.
    destruct (hostRemove m (document w)) as [doc [e|]].
    + destruct (IH count
                  (mkWorld doc ((events w ++ [EvRemove m (Some e)])
                                ++ [EvWriteln e])))
        as (evs & Hev & Hc & Ht).
      exists ([EvRemove m (Some e); EvWriteln e] ++ evs).
      rewrite Hev, Hc. cbn [events]. rewrite <- !app_assoc. cbn [app].
      split; [reflexivity|]. split.
      * unfold successes. cbn [filter length]. lia.
      * change (m :: rest) with ([m] ++ rest).
        change (EvRemove m (Some e) :: EvWriteln e :: evs)
          with ([EvRemove m (Some e); EvWriteln e] ++ evs).
        apply removalTrace_app; [|exact Ht]. repeat split.
    + destruct (IH (S count) (mkWorld doc (events w ++ [EvRemove m None])))
        as (evs & Hev & Hc & Ht).
      exists ([EvRemove m None] ++ evs).
      rewrite Hev, Hc. cbn [events]. rewrite <- !app_assoc. cbn [app].
      split; [reflexivity|]. split.
      * unfold successes. cbn [filter length]. lia.
      * change (m :: rest) with ([m] ++ rest).
        change (EvRemove m None :: evs) with ([EvRemove m None] ++ evs).
        apply removalTrace_app; [|exact Ht]. repeat split.
Qed.

Lemma removeDuplicates_spec (table : HashTable) :
  forall count w,
  exists evs,
    events (snd (removeDuplicates hostRemove table count w)) = events w ++ evs
    /\ fst (removeDuplicates hostRemove table count w)
       = (count + successes evs)%nat
    /\ removalTrace (flat_map (fun g => skipn 1 (snd g)) table) evs.
Proof.
  induction table as [|[k g] table IH]; intros count w.
  - exists []. cbn. rewrite app_nil_r. repeat split; lia.
  - rewrite removeDuplicates_cons. cbn [flat_map snd].
    destruct (removeEach_spec (skipn 1 g) count w) as (e1 & Hev1 & Hc1 & Ht1).
    destruct (removeEach hostRemove (skipn 1 g) count w) as [c1 w1].
    cbn [fst snd] in *.
    destruct (IH c1 w1) as (e2 & Hev2 & Hc2 & Ht2).
    exists (e1 ++ e2). rewrite Hev2, Hc2, Hev1, Hc1, successes_app, app_assoc.
    split; [reflexivity|]. split; [lia|]. now apply removalTrace_app.
Qed.

(** A phase calls [remove()] exactly on the duplicates of its
    candidates, and counts the calls that returned. *)
Lemma dedupe_spec (hashOf : PageItem -> string) (items : list PageItem)
    (w : World) :
  exists evs,
    events (snd (dedupe hostRemove hashOf items w)) = events w ++ evs
    /\ fst (dedupe hostRemove hashOf items w) = successes evs
    /\ removalTrace (duplicates hashOf items) evs.
Proof.
  unfold dedupe.
  destruct (removeDuplicates_spec (groupByHash hashOf items) 0 w)
    as (evs & Hev & Hc & Ht).
  exists evs. split; [exact Hev|]. split; [exact Hc | exact Ht].
Qed.

End WithHost.

End Dedup.

(** ** The traversal *)

Module Collect.

(** Induction over a page item and the children it exposes. *)
Lemma PageItem_children_ind (P : PageItem -> Prop) :
  (forall item,
      (forall items, pageItems item = Some items -> Forall P items) ->
      P item) ->
  forall item, P item.
Proof.
  intros step. fix self 1. intros item. apply step.
  destruct item as [i t l h g c pts cl subs children]. cbn [pageItems].
  intros items E. destruct children as [xs|]; [|discriminate].
  injection E as <-. induction xs as [|x xs IH]; constructor.
  - apply self.
  - exact IH.
Qed.

Lemma collectPathsOf_unfold (t : string) (container : PageItem)
    (paths : list PageItem) :
  collectPathsOf t container paths =
  match pageItems container with
  | None => paths
  | Some items => fold_left (collectStep (collectPathsOf t) t) items paths
  end.
Proof.
  destruct container as [i ty l h g c pts cl subs [items|]];
    cbn [collectPathsOf pageItems]; [|reflexivity].
  revert paths. induction items as [|x items IH]; intros paths;
    [reflexivity|].
  cbn [fold_left]. apply IH.
Qed.

(** A skipped child leaves the array as it is. *)
Lemma collectStep_skipped (recur : PageItem -> list PageItem -> list PageItem)
    (t : string) (paths : list PageItem) (pageItem : PageItem) :
  skipped pageItem = true -> collectStep recur t paths pageItem = paths.
Proof. unfold collectStep. now intros ->. Qed.

Lemma fold_append {A B : Type} (step : list A -> B -> list A)
    (items : list B) :
  (forall x, In x items -> forall acc, step acc x = acc ++ step [] x) ->
  forall acc, fold_left step items acc = acc ++ flat_map (step []) items.
Proof.
  induction items as [|x items IH]; intros H acc; cbn [fold_left flat_map].
  - now rewrite app_nil_r.
  - rewrite IH by (intros; apply H; now right).
    rewrite (H x (or_introl eq_refl) acc). now rewrite <- app_assoc.
Qed.

(** The traversal only appends: the array grows by the contributions of
    the children, in order. *)
Lemma collectPathsOf_children (t : string) (container : PageItem) :
  forall paths,
    collectPathsOf t container paths =
    paths ++ match pageItems container with
             | None => []
             | Some items => flat_map (contribution t) items
             end.
Proof.
  induction container as [container IH] using PageItem_children_ind.
  intros paths. rewrite collectPathsOf_unfold.
  destruct (pageItems container) as [items|]; [|now rewrite app_nil_r].
  specialize (IH items eq_refl). apply fold_append.
  intros x Hx acc. rewrite Forall_forall in IH. unfold collectStep.
  destruct (skipped x); [now rewrite app_nil_r|].
  destruct (String.eqb (typename x) t).
  - destruct (String.eqb t "PathItem" && nonEmpty (pathPoints x));
      destruct (String.eqb t "CompoundPathItem" && nonEmpty (pathItems x));
      cbn [app]; rewrite ?app_nil_r, <- ?app_assoc; reflexivity.
  - destruct (isContainerType (typename x)); [|now rewrite app_nil_r].
    rewrite (IH x Hx acc), (IH x Hx []). reflexivity.
Qed.

(** Nothing that is collected is locked, hidden, a guide or a clipping
    mask. *)
Lemma collectPathsOf_unskipped (t : string) (container : PageItem) :
  Forall (fun x => skipped x = false) (collectPathsOf t container []).
Proof.
  induction container as [container IH] using PageItem_children_ind.
  rewrite collectPathsOf_children. cbn [app].
  destruct (pageItems container) as [items|]; [|constructor].
  specialize (IH items eq_refl). rewrite Forall_forall in IH.
  apply Forall_forall. intros y Hy. apply in_flat_map in Hy as (x & Hx & Hy).
  unfold contribution, collectStep in Hy.
  destruct (skipped x) eqn:Hs; [destruct Hy|].
  destruct (String.eqb (typename x) t).
  - destruct (String.eqb t "PathItem" && nonEmpty (pathPoints x));
      destruct (String.eqb t "CompoundPathItem" && nonEmpty (pathItems x));
      cbn in Hy; intuition (subst; assumption).
  - destruct (isContainerType (typename x)); [|destruct Hy].
    specialize (IH x Hx). rewrite Forall_forall in IH. now apply IH.
Qed.

(** The selection loop appends in the same way. *)
Lemma selectionStep_app (paths : list PageItem) (x : PageItem) :
  selectionStep paths x = paths ++ selectionStep [] x.
Proof.
  unfold selectionStep. destruct (skipped x); [now rewrite app_nil_r|].
  destruct (String.eqb (typename x) "PathItem"); [reflexivity|].
  destruct (isContainerType (typename x)); [|now rewrite app_nil_r].
  unfold collectPaths.
  rewrite (collectPathsOf_children _ x paths), (collectPathsOf_children _ x []).
  reflexivity.
Qed.

Lemma selection_loop (sel : list PageItem) :
  fold_left selectionStep sel [] = flat_map (selectionStep []) sel.
Proof.
  rewrite (fold_append selectionStep sel); [reflexivity|].
  intros x _ acc. apply selectionStep_app.
Qed.

Lemma selectionStep_unskipped (x : PageItem) :
  Forall (fun y => skipped y = false) (selectionStep [] x).
Proof.
  unfold selectionStep. destruct (skipped x) eqn:Hs; [constructor|].
  destruct (String.eqb (typename x) "PathItem").
  - constructor; [exact Hs | constructor].
  - destruct (isContainerType (typename x)); [|constructor].
    apply collectPathsOf_unskipped.
Qed.

Lemma collectInLayers_unskipped (doc : Document) (n : nat)
    (t : option string) :
  Forall (fun y => skipped y = false) (collectInLayers doc n t []).
Proof.
  unfold collectInLayers.
  assert (H : forall l acc, Forall (fun y => skipped y = false) acc ->
    Forall (fun y => skipped y = false)
      (fold_left
         (fun paths i =>
            match nth_error (layers doc) i with
            | Some layer => collectPaths layer paths t
            | None => paths
            end) l acc)).
  { induction l as [|i l IH]; intros acc Hacc; [exact Hacc|].
    cbn [fold_left]. apply IH.
    destruct (nth_error (layers doc) i) as [layer|]; [|exact Hacc].
    unfold collectPaths. rewrite collectPathsOf_children.
    rewrite <- (app_nil_l (match pageItems layer with
                           | Some items => _ | None => [] end)).
    rewrite <- collectPathsOf_children.
    apply Forall_app. split; [exact Hacc | apply collectPathsOf_unskipped]. }
  apply H. constructor.
Qed.

(** No candidate of phase 2 is locked, hidden, a guide or a clipping
    mask. *)
Lemma candidatePaths_unskipped (doc : Document) (n : nat) :
  Forall (fun y => skipped y = false) (candidatePaths doc n).
Proof.
  unfold candidatePaths.
  destruct (selection doc) as [[|x sel]|];
    try apply collectInLayers_unskipped.
  rewrite selection_loop. apply Forall_forall. intros y Hy.
  apply in_flat_map in Hy as (z & _ & Hy).
  pose proof (selectionStep_unskipped z) as H.
  rewrite Forall_forall in H. now apply H.
Qed.

End Collect.

(** ** Fingerprints against the specification's wording *)

Module FingerprintFacts.

Import JS Chars Num Fingerprint.

Lemma join_concat (sep : string) (l : list string) :
  join sep l = String.concat sep l.
Proof.
  induction l as [|x l IH]; [reflexivity|].
  destruct l as [|y l]; [reflexivity|].
  change (x +++ sep +++ join sep (y :: l)
          = x +++ sep +++ String.concat sep (y :: l)).
  now rewrite IH.
Qed.

Lemma fields_near (f : nat) (a b : PathPoint) :
  fields (S f) a = fields (S f) b -> pointNear f a b.
Proof.
  unfold fields. intros H.
  injection H as H1 H2 H3 H4 H5 H6 H7.
  apply toFixed_inj in H1, H2, H3, H4, H5, H6.
  apply PointType_toString_inj in H7.
  unfold pointNear, coordNear.
  repeat split;
    try (apply roundScaled_coarser); try tauto.
Qed.

Lemma tokens_near (f : nat) (l1 l2 : list PathPoint) :
  map (pointHash (S f)) l1 = map (pointHash (S f)) l2 ->
  Forall2 (pointNear f) l1 l2.
Proof.
  revert l2; induction l1 as [|a l1 IH]; intros [|b l2] H;
    cbn [map] in H; try discriminate; [constructor|].
  injection H as Hab Hl. constructor; [|now apply IH].
  apply fields_near. now apply pointHash_inj.
Qed.

End FingerprintFacts.

(** ** [main] as two phases *)

Module Engine.

Import Grouping Dedup.

Section WithHost.

Variable hostRemove : PageItem -> Document -> Document * option string.

Lemma main_unfold (p : nat) (doc : Document) :
  main hostRemove p (Some doc) =
  let n := length (layers doc) in
  let compoundPaths := compoundCandidates doc in
  let r1 :=
    dedupe hostRemove (compoundPathToHash p) compoundPaths (mkWorld doc []) in
  let paths := candidatePaths (document (snd r1)) n in
  if nothingFound paths compoundPaths then
    (Some (document (snd r1)), events (snd r1) ++ [EvAlert nothingEligible])
  else
    let r2 := dedupe hostRemove (pathToHash p) paths (snd r1) in
    (Some (document (snd r2)),
     events (snd r2) ++ [EvAlert (summary (fst r2) (fst r1))]).
Proof.
  unfold main, mainOn, bind, activeDocument, dedupe, compoundCandidates,
    nothingFound, alert, emit.
  cbn [document events].
  destruct (removeDuplicates hostRemove _ 0 (mkWorld doc [])) as [c1 w1].
  cbn [fst snd].
  destruct ((length (candidatePaths (document w1) (length (layers doc))) =? 0)%nat
            && (length (collectInLayers doc (length (layers doc))
                          (Some "CompoundPathItem") []) =? 0)%nat).
  - reflexivity.
  - destruct (removeDuplicates hostRemove _ 0 w1) as [c2 w2]. reflexivity.
Qed.

Lemma dedupe_nil (hashOf : PageItem -> string) (w : World) :
  dedupe hostRemove hashOf [] w = (0%nat, w).
Proof. reflexivity. Qed.

Lemma groupByHash_one_key (hashOf : PageItem -> string) (k : string)
    (first : PageItem) (rest : list PageItem) :
  k <> "" -> (forall x, In x (first :: rest) -> hashOf x = k) ->
  groupByHash hashOf (first :: rest) = [(k, first :: rest)].
Proof.
  intros Hk. assert (Ht : JS.truthy k = true) by (destruct k; [now elim Hk | reflexivity]).
  induction rest as [|x rest IH] using rev_ind; intros H.
  - unfold groupByHash. cbn [fold_left]. unfold groupStep.
    rewrite (H first (or_introl eq_refl)), Ht. cbn [negb lookup app push].
    now rewrite String.eqb_refl.
  - change (first :: rest ++ [x]) with ((first :: rest) ++ [x]).
    rewrite groupByHash_snoc, IH.
    + unfold groupStep. rewrite (H x), Ht.
      * cbn [negb lookup]. rewrite String.eqb_refl. cbn [push].
        now rewrite String.eqb_refl.
      * right. apply in_app_iff. right. now left.
    + intros y Hy. apply H. destruct Hy as [->|Hy]; [now left|].
      right. apply in_app_iff. now left.
Qed.

(** A phase whose candidates all have one non-empty key removes all of
    them but the first. *)
Lemma dedupe_one_key (hashOf : PageItem -> string) (k : string)
    (first : PageItem) (rest : list PageItem) (w : World) :
  k <> "" -> (forall x, In x (first :: rest) -> hashOf x = k) ->
  dedupe hostRemove hashOf (first :: rest) w = removeEach hostRemove rest 0 w.
Proof.
  intros Hk H. unfold dedupe. rewrite (groupByHash_one_key hashOf k) by assumption.
  rewrite removeDuplicates_cons. cbn [skipn removeDuplicates].
  unfold ret. now destruct (removeEach hostRemove rest 0 w).
Qed.

(** Every run on an open document is a run in two phases. *)
Lemma main_twoPhases (p : nat) (doc : Document) :
  exists doc1 ev1 ev2,
    twoPhases p doc (main hostRemove p (Some doc)) doc1 ev1 ev2.
Proof.
  rewrite main_unfold. cbv zeta.
  destruct (dedupe_spec hostRemove (compoundPathToHash p)
              (compoundCandidates doc) (mkWorld doc []))
    as (ev1 & Hev1 & Hc1 & Ht1).
  destruct (dedupe hostRemove (compoundPathToHash p) (compoundCandidates doc)
              (mkWorld doc [])) as [c1 w1].
  cbn [fst snd events] in *. cbn [app] in Hev1.
  exists (document w1), ev1.
  destruct (nothingFound (candidatePaths (document w1) (length (layers doc)))
              (compoundCandidates doc)) eqn:Hnf.
  - exists []. unfold twoPhases. rewrite Hnf. split; [exact Ht1|]. split.
    + unfold nothingFound in Hnf. apply andb_true_iff in Hnf as [Hp _].
      apply Nat.eqb_eq, length_zero_iff_nil in Hp. rewrite Hp.
      repeat split.
    + exists (document w1). now rewrite Hev1.
  - destruct (dedupe_spec hostRemove (pathToHash p)
                (candidatePaths (document w1) (length (layers doc))) w1)
      as (ev2 & Hev2 & Hc2 & Ht2).
    destruct (dedupe hostRemove (pathToHash p)
                (candidatePaths (document w1) (length (layers doc))) w1)
      as [c2 w2].
    cbn [fst snd] in *.
    exists ev2. unfold twoPhases. rewrite Hnf. split; [exact Ht1|].
    split; [exact Ht2|]. exists (document w2).
    rewrite Hev2, Hev1, Hc1, Hc2, <- app_assoc. reflexivity.
Qed.

End WithHost.

End Engine.

(** ** Scenarios and the last facts the claims need *)

Module Facts.

Import JS Chars Num Fingerprint Grouping Dedup Collect Engine.

(** Three simple shapes with the same control points and closed flag in
    one layer, as the document of the first-seen scenario. *)
Lemma three_identical_candidates (p : nat) (pts : list PathPoint)
    (pt : PathPoint) (cl : bool) (hostRemove : PageItem -> Document -> Document * option string) :
  let A := pathItem 1 (pt :: pts) cl in
  let B := pathItem 2 (pt :: pts) cl in
  let C := pathItem 3 (pt :: pts) cl in
  main hostRemove p (Some (mkDocument [layer 0 [A; B; C]] None)) =
  let r := removeEach hostRemove [B; C] 0
             (mkWorld (mkDocument [layer 0 [A; B; C]] None) []) in
  (Some (document (snd r)),
   events (snd r) ++ [EvAlert (summary (fst r) 0)]).
Proof.
  intros A B C. rewrite main_unfold. cbv zeta.
  change (compoundCandidates (mkDocument [layer 0 [A; B; C]] None)) with (@nil PageItem).
  rewrite dedupe_nil. cbn [fst snd document].
  change (candidatePaths (mkDocument [layer 0 [A; B; C]] None)
            (length (layers (mkDocument [layer 0 [A; B; C]] None))))
    with [A; B; C].
  change (nothingFound [A; B; C] []) with false. cbv iota.
  rewrite (dedupe_one_key hostRemove (pathToHash p) (pathToHash p A)).
  - reflexivity.
  - apply Fingerprint.pathToHash_nonempty. discriminate.
  - intros x [<-|[<-|[<-|[]]]]; reflexivity.
Qed.

Lemma skipped_flagged (x : PageItem) : skipped x = true <-> flagged x.
Proof.
  unfold skipped, flagged. rewrite !orb_true_iff. tauto.
Qed.

Lemma unskipped_not_flagged (x : PageItem) : skipped x = false <-> ~ flagged x.
Proof.
  rewrite <- skipped_flagged. destruct (skipped x); split; congruence.
Qed.

Lemma In_skipn_1_later {A : Type} (y x : A) (l1 l2 : list A) :
  In y l2 -> In y (skipn 1 (l1 ++ x :: l2)).
Proof.
  intros H. destruct l1 as [|z l1]; cbn [app skipn]; [exact H|].
  apply in_app_iff. right. now right.
Qed.

Lemma join_repeat_empty (n : nat) :
  JS.join "|" (repeat "" (S n)) = bars n.
Proof.
  induction n as [|n IH]; [reflexivity|].
  change (JS.join "|" (repeat "" (S (S n))))
    with ("" +++ "|" +++ JS.join "|" (repeat "" (S n))).
  now rewrite IH.
Qed.

Lemma hashes_of_empty_subpaths (p : nat) (subs : list PageItem) :
  Forall (fun s => pointsOf s = []) subs ->
  map (pathToHash p) subs = repeat "" (length subs).
Proof.
  induction 1 as [|s subs Hs _ IH]; [reflexivity|].
  cbn [map length repeat]. rewrite IH, pathToHash_unfold, Hs. reflexivity.
Qed.

Lemma compound_of_empty_subpaths (p n : nat) (c : PageItem)
    (subs : list PageItem) :
  pathItems c = Some subs -> length subs = S n ->
  Forall (fun s => pointsOf s = []) subs ->
  compoundPathToHash p c = bars n.
Proof.
  intros E Hlen Hall. rewrite compoundPathToHash_unfold, E.
  destruct subs as [|s subs]; [discriminate|].
  rewrite hashes_of_empty_subpaths by exact Hall.
  rewrite Hlen, Sorting.sort_repeat. apply join_repeat_empty.
Qed.

(** What the traversal collects has the requested type name and, for
    paths, at least one control point. *)
Lemma collectPathsOf_matching (t : string) (container : PageItem) :
  Forall (fun x => typename x = t
                   /\ (t = "PathItem" -> nonEmpty (pathPoints x) = true))
    (collectPathsOf t container []).
Proof.
  induction container as [container IH] using PageItem_children_ind.
  rewrite collectPathsOf_children. cbn [app].
  destruct (pageItems container) as [items|]; [|constructor].
  specialize (IH items eq_refl). rewrite Forall_forall in IH.
  apply Forall_forall. intros y Hy. apply in_flat_map in Hy as (x & Hx & Hy).
  unfold contribution, collectStep in Hy.
  destruct (skipped x); [destruct Hy|].
  destruct (String.eqb_spec (typename x) t) as [Ht|Ht].
  - destruct (String.eqb_spec t "PathItem") as [Hp|Hp];
      destruct (nonEmpty (pathPoints x)) eqn:Hn;
      destruct (String.eqb_spec t "CompoundPathItem") as [Hc|Hc];
      destruct (nonEmpty (pathItems x));
      cbn [andb app In] in Hy;
      repeat (destruct Hy as [Hy|Hy]); try contradiction; subst y;
      (split; [exact Ht | congruence]).
  - destruct (isContainerType (typename x)); [|destruct Hy].
    specialize (IH x Hx). rewrite Forall_forall in IH. now apply IH.
Qed.

End Facts.

(** * The claims *)

Import JS Chars Num Fingerprint FingerprintFacts.
Import Grouping Dedup Collect Engine Facts.

(** C2. A compound shape and a copy with its sub-shapes permuted have
    the same fingerprint, whereas simple shapes stay sensitive to the
    order of their control points: a reordering that changes the
    sequence of point tokens changes the fingerprint. *)
Theorem subpath_order_insensitive (p : nat) (c c' : PageItem)
    (subs subs' : list PageItem) :
  pathItems c = Some subs -> pathItems c' = Some subs' -> subs <> [] ->
  Permutation subs subs' ->
  compoundPathToHash p c = compoundPathToHash p c'
  /\ forall s s' : PageItem,
       Permutation (pointsOf s) (pointsOf s') ->
       map (pointHash p) (pointsOf s) <> map (pointHash p) (pointsOf s') ->
       pathToHash p s <> pathToHash p s'.
Proof.
  intros E E' Hne HP. split.
  - rewrite !compoundPathToHash_unfold, E, E'.
    assert (Hne' : subs' <> []).
    { intros ->. apply Permutation_sym, Permutation_nil in HP. contradiction. }
    destruct subs as [|x xs]; [congruence|].
    destruct subs' as [|y ys]; [congruence|].
    f_equal. apply Sorting.sort_permutation_invariant.
    now apply Permutation_map.
  - intros s s' _ Hdiff H. apply Hdiff. now apply pathToHash_inj.
Qed.

Lemma subpath_order_insensitive_witness :
  compoundPathToHash 1
    (compoundPathItem 9 [outlineBelowHalf; outlineAboveHalf])
  = compoundPathToHash 1
      (compoundPathItem 9 [outlineAboveHalf; outlineBelowHalf])
  /\ pathToHash 0 (pathItem 3 [cornerAt 0 0; cornerAt 1 1] true)
     <> pathToHash 0 (pathItem 3 [cornerAt 1 1; cornerAt 0 0] true).
Proof.
  destruct (subpath_order_insensitive 1
              (compoundPathItem 9 [outlineBelowHalf; outlineAboveHalf])
              (compoundPathItem 9 [outlineAboveHalf; outlineBelowHalf])
              [outlineBelowHalf; outlineAboveHalf]
              [outlineAboveHalf; outlineBelowHalf])
    as [H1 _]; [reflexivity | reflexivity | discriminate | apply perm_swap |].
  destruct (subpath_order_insensitive 0
              (compoundPathItem 9 [outlineBelowHalf; outlineAboveHalf])
              (compoundPathItem 9 [outlineAboveHalf; outlineBelowHalf])
              [outlineBelowHalf; outlineAboveHalf]
              [outlineAboveHalf; outlineBelowHalf])
    as [_ H2]; [reflexivity | reflexivity | discriminate | apply perm_swap |].
  split; [exact H1|].
  apply H2; [apply perm_swap | vm_compute; discriminate].
Defined.

(** C4, as stated, fails: the outlines with abscissa 15/32 and 17/32
    have the same fingerprint at precision 1 (both print 0.5) and
    different fingerprints at precision 0 (0 and 1). *)
Lemma precision_monotonicity_fails :
  ~ (forall (s1 s2 : PageItem) (p : nat),
       pathToHash (S p) s1 = pathToHash (S p) s2 ->
       pathToHash p s1 = pathToHash p s2).
Proof.
  intros H. specialize (H outlineBelowHalf outlineAboveHalf 0%nat eq_refl).
  vm_compute in H. discriminate.
Qed.

(** C4, amended. Two simple shapes with the same fingerprint at
    precision [p + 1] have, at precision [p], the same number of control
    points, the same kind tags, the same closed marker when they have a
    point, and coordinates that print with the same sign and at most one
    unit of the last digit apart; the fingerprints at [p] need not be
    equal. *)
Theorem finer_equality_bounds_coarser (p : nat) (s1 s2 : PageItem) :
  pathToHash (S p) s1 = pathToHash (S p) s2 ->
  Forall2 (pointNear p) (pointsOf s1) (pointsOf s2)
  /\ (pointsOf s1 <> [] -> closed s1 = closed s2).
Proof.
  intros H. destruct (pathToHash_inj (S p) s1 s2 H) as [Hmap Hcl].
  split; [now apply tokens_near | exact Hcl].
Qed.

Lemma finer_equality_bounds_coarser_witness :
  Forall2 (pointNear 0) (pointsOf outlineBelowHalf) (pointsOf outlineAboveHalf)
  /\ (pointsOf outlineBelowHalf <> [] ->
      closed outlineBelowHalf = closed outlineAboveHalf).
Proof.
  apply (finer_equality_bounds_coarser 0 outlineBelowHalf outlineAboveHalf).
  reflexivity.
Defined.

(** C5. A simple shape without control points and a compound shape
    without sub-shapes hash to the empty key; the grouping loop puts no
    item with the empty key into any group; in no run is [remove()]
    called on an item whose key, in the phase at hand, is empty; and two
    directly selected paths without control points, which do reach the
    grouping loop, are both left in place. *)
Theorem empty_geometry_skipped
    (hostRemove : PageItem -> Document -> Document * option string)
    (p : nat) (doc : Document) :
  (forall path, pointsOf path = [] -> pathToHash p path = "")
  /\ (forall c, pathItems c = Some [] -> compoundPathToHash p c = "")
  /\ (forall hashOf items k g x,
        In (k, g) (groupByHash hashOf items) -> In x g -> hashOf x <> "")
  /\ (exists doc1 ev1 ev2,
        twoPhases p doc (main hostRemove p (Some doc)) doc1 ev1 ev2
        /\ Forall (fun x => compoundPathToHash p x <> "") (removeTargets ev1)
        /\ Forall (fun x => pathToHash p x <> "") (removeTargets ev2))
  /\ let selected := [pathItem 1 [] true; pathItem 2 [] true] in
     main (Host.remove []) p
       (Some (mkDocument [layer 0 selected] (Some selected)))
     = (Some (mkDocument [layer 0 selected] (Some selected)),
        [EvAlert "Removed 0 duplicate path items, 0 duplicate compound paths!"]).
Proof.
  split; [|split; [|split; [|split]]].
  - intros path H. now rewrite pathToHash_unfold, H.
  - intros c H. now rewrite compoundPathToHash_unfold, H.
  - intros hashOf items k g x Hin Hx.
    destruct (groupByHash_grouped hashOf items) as (_ & Hent & _).
    destruct (Hent k g Hin) as (Hk & _ & ->).
    apply members_key in Hx as [Hxk _]. congruence.
  - destruct (main_twoPhases hostRemove p doc) as (doc1 & ev1 & ev2 & H).
    exists doc1, ev1, ev2. split; [exact H|].
    destruct H as ((T1 & _) & (T2 & _) & _). rewrite T1, T2.
    split; apply Forall_forall; intros x Hx;
      now apply duplicates_In in Hx.
  - reflexivity.
Qed.

Lemma empty_geometry_skipped_witness :
  pathToHash 1 (pathItem 1 [] true) = ""
  /\ compoundPathToHash 1 (compoundPathItem 2 []) = "".
Proof.
  destruct (empty_geometry_skipped (Host.remove []) 1 (mkDocument [] None))
    as (H1 & H2 & _).
  split; [apply H1 | apply H2]; reflexivity.
Defined.

(** C7. A child of a container that is locked, hidden, a guide or a
    clipping mask contributes nothing to the traversal, neither itself
    nor anything below it: the result is that of the container without
    the child.  Nothing the traversal returns has one of the flags. *)
Theorem flagged_child_skipped (t : option string)
    (container container' child : PageItem)
    (before after paths : list PageItem) :
  pageItems container = Some (before ++ child :: after) ->
  pageItems container' = Some (before ++ after) ->
  flagged child ->
  collectPaths container paths t = collectPaths container' paths t
  /\ Forall (fun x => ~ flagged x) (collectPaths container [] t).
Proof.
  intros E E' Hf. unfold collectPaths. split.
  - rewrite !collectPathsOf_children, E, E'. f_equal.
    rewrite !flat_map_app. f_equal. cbn [flat_map].
    unfold contribution at 1.
    rewrite collectStep_skipped by now apply skipped_flagged.
    reflexivity.
  - eapply Forall_impl; [|apply collectPathsOf_unskipped].
    intros x. apply unskipped_not_flagged.
Qed.

Lemma flagged_child_skipped_witness :
  collectPaths
    (layer 0 [pathItem 1 [cornerAt 0 0] true;
              mkPageItem 5 "GroupItem" true false false false None false None
                (Some [pathItem 6 [cornerAt 0 0] true]);
              pathItem 2 [cornerAt 1 1] true]) [] None
  = [pathItem 1 [cornerAt 0 0] true; pathItem 2 [cornerAt 1 1] true].
Proof.
  destruct (flagged_child_skipped None
              (layer 0 [pathItem 1 [cornerAt 0 0] true;
                        mkPageItem 5 "GroupItem" true false false false None
                          false None (Some [pathItem 6 [cornerAt 0 0] true]);
                        pathItem 2 [cornerAt 1 1] true])
              (layer 0 [pathItem 1 [cornerAt 0 0] true;
                        pathItem 2 [cornerAt 1 1] true])
              (mkPageItem 5 "GroupItem" true false false false None false None
                 (Some [pathItem 6 [cornerAt 0 0] true]))
              [pathItem 1 [cornerAt 0 0] true]
              [pathItem 2 [cornerAt 1 1] true] [])
    as [H _]; [reflexivity | reflexivity | left; reflexivity |].
  rewrite H. reflexivity.
Defined.

(** C8. When neither a compound path nor a path is found, the run
    consists of the one alert that nothing is eligible: [remove()] is
    not called and the document is as before. *)
Theorem nothing_eligible
    (hostRemove : PageItem -> Document -> Document * option string)
    (p : nat) (doc : Document) :
  compoundCandidates doc = [] ->
  candidatePaths doc (length (layers doc)) = [] ->
  main hostRemove p (Some doc) = (Some doc, [EvAlert nothingEligible]).
Proof.
  intros Hc Hp. rewrite main_unfold. cbv zeta.
  rewrite Hc, dedupe_nil. cbn [fst snd document events]. rewrite Hp.
  reflexivity.
Qed.

Lemma nothing_eligible_witness :
  main (Host.remove []) 1
    (Some (mkDocument
             [layer 0 [lockedPathItem 1 [cornerAt 0 0];
                       lockedPathItem 2 [cornerAt 0 0]]] None))
  = (Some (mkDocument
             [layer 0 [lockedPathItem 1 [cornerAt 0 0];
                       lockedPathItem 2 [cornerAt 0 0]]] None),
     [EvAlert "No eligible paths found (check for locked/hidden items, or groups/compound paths)."]).
Proof.
  apply (nothing_eligible (Host.remove []) 1); reflexivity.
Defined.

(** C9, as stated, fails: a directly selected path that is locked is
    not taken into the candidates. *)
Lemma selected_locked_path_not_taken :
  ~ (forall (doc : Document) (sel : list PageItem) (x : PageItem),
       selection doc = Some sel -> In x sel -> typename x = "PathItem" ->
       In x (candidatePaths doc (length (layers doc)))).
Proof.
  intros H.
  specialize (H (mkDocument [] (Some [lockedPathItem 1 [cornerAt 0 0]]))
                [lockedPathItem 1 [cornerAt 0 0]]
                (lockedPathItem 1 [cornerAt 0 0])
                eq_refl (or_introl eq_refl) eq_refl).
  exact H.
Qed.

(** C9, amended. In selection mode a directly selected path is a
    candidate exactly when it is not locked, hidden, a guide or a
    clipping mask, the same test the traversal applies to children; what
    the selection loop leaves out is the test for control points, which
    the traversal applies to the paths it collects. *)
Theorem selected_path_taken_unless_flagged (doc : Document)
    (sel : list PageItem) (x : PageItem) (n : nat) :
  selection doc = Some sel -> In x sel -> typename x = "PathItem" ->
  (In x (candidatePaths doc n) <-> ~ flagged x)
  /\ forall container y,
       In y (collectPaths container [] None) ->
       nonEmpty (pathPoints y) = true.
Proof.
  intros E Hx Ht. split.
  - split.
    + intros Hin. apply unskipped_not_flagged.
      pose proof (candidatePaths_unskipped doc n) as H.
      rewrite Forall_forall in H. now apply H.
    + intros Hnf. apply unskipped_not_flagged in Hnf.
      unfold candidatePaths. rewrite E.
      destruct sel as [|s sel]; [destruct Hx|].
      change (In x (fold_left selectionStep (s :: sel) [])).
      rewrite selection_loop. apply in_flat_map. exists x. split; [exact Hx|].
      unfold selectionStep. rewrite Hnf, Ht. now left.
  - intros container y Hy. unfold collectPaths in Hy.
    pose proof (collectPathsOf_matching "PathItem" container) as H.
    rewrite Forall_forall in H. now apply H.
Qed.

Lemma selected_path_taken_unless_flagged_witness :
  In (pathItem 1 [] true)
    (candidatePaths
       (mkDocument [] (Some [lockedPathItem 2 [cornerAt 0 0];
                             pathItem 1 [] true])) 0)
  /\ ~ In (lockedPathItem 2 [cornerAt 0 0])
       (candidatePaths
          (mkDocument [] (Some [lockedPathItem 2 [cornerAt 0 0];
                                pathItem 1 [] true])) 0).
Proof.
  split.
  - apply (selected_path_taken_unless_flagged
             (mkDocument [] (Some [lockedPathItem 2 [cornerAt 0 0];
                                   pathItem 1 [] true]))
             [lockedPathItem 2 [cornerAt 0 0]; pathItem 1 [] true]
             (pathItem 1 [] true) 0);
      [reflexivity | right; left; reflexivity | reflexivity |].
    unfold flagged. cbn. intuition discriminate.
  - intros H.
    apply (selected_path_taken_unless_flagged
             (mkDocument [] (Some [lockedPathItem 2 [cornerAt 0 0];
                                   pathItem 1 [] true]))
             [lockedPathItem 2 [cornerAt 0 0]; pathItem 1 [] true]
             (lockedPathItem 2 [cornerAt 0 0]) 0) in H;
      [| reflexivity | left; reflexivity | reflexivity].
    apply H. left. reflexivity.
Defined.

(** C10. Two compound paths that each have [n >= 2] sub-paths, none
    with a control point, have the same key, [n - 1] separators and
    nothing else; the key is not empty, so whenever both are collected
    [remove()] is called on the later one. *)
Theorem empty_subpath_compounds_collide (p n : nat) (c1 c2 : PageItem)
    (subs1 subs2 : list PageItem) :
  (2 <= n)%nat ->
  pathItems c1 = Some subs1 -> length subs1 = n ->
  Forall (fun s => pointsOf s = []) subs1 ->
  pathItems c2 = Some subs2 -> length subs2 = n ->
  Forall (fun s => pointsOf s = []) subs2 ->
  compoundPathToHash p c1 = bars (n - 1)%nat
  /\ compoundPathToHash p c2 = bars (n - 1)%nat
  /\ bars (n - 1)%nat <> ""
  /\ forall hostRemove doc before between after,
       compoundCandidates doc = before ++ c1 :: between ++ c2 :: after ->
       In c2 (removeTargets (snd (main hostRemove p (Some doc)))).
Proof.
  intros Hn E1 L1 A1 E2 L2 A2.
  destruct n as [|[|n]]; try lia.
  replace (S (S n) - 1)%nat with (S n) by lia.
  pose proof (compound_of_empty_subpaths p (S n) c1 subs1 E1 L1 A1) as K1.
  pose proof (compound_of_empty_subpaths p (S n) c2 subs2 E2 L2 A2) as K2.
  split; [exact K1|]. split; [exact K2|]. split; [discriminate|].
  intros hostRemove doc before between after Hc.
  destruct (main_twoPhases hostRemove p doc) as (doc1 & ev1 & ev2 & H).
  destruct H as ((T1 & _) & _ & (doc2 & ->)). cbn [snd].
  rewrite removeTargets_app. apply in_app_iff. left. rewrite T1.
  assert (Hin : In c2 (filter (keyIs (compoundPathToHash p) (bars (S n)))
                         (duplicates (compoundPathToHash p)
                            (compoundCandidates doc)))).
  { rewrite duplicates_of_key by discriminate.
    rewrite Hc. unfold members. rewrite filter_app. cbn [filter].
    assert (Hk1 : keyIs (compoundPathToHash p) (bars (S n)) c1 = true)
      by (unfold keyIs; rewrite K1; apply String.eqb_refl).
    assert (Hk2 : keyIs (compoundPathToHash p) (bars (S n)) c2 = true)
      by (unfold keyIs; rewrite K2; apply String.eqb_refl).
    rewrite Hk1. apply In_skipn_1_later. apply filter_In.
    split; [apply in_elt | exact Hk2]. }
  now apply filter_In in Hin.
Qed.

Lemma empty_subpath_compounds_collide_witness :
  compoundPathToHash 1
    (compoundPathItem 1 [pathItem 10 [] true; pathItem 11 [] true]) = "|"
  /\ In (compoundPathItem 2 [pathItem 12 [] true; pathItem 13 [] true])
       (removeTargets
          (snd (main (Host.remove []) 1
                  (Some (mkDocument
                           [layer 0
                              [compoundPathItem 1
                                 [pathItem 10 [] true; pathItem 11 [] true];
                               compoundPathItem 2
                                 [pathItem 12 [] true; pathItem 13 [] true]]]
                           None))))).
Proof.
  destruct (empty_subpath_compounds_collide 1 2
              (compoundPathItem 1 [pathItem 10 [] true; pathItem 11 [] true])
              (compoundPathItem 2 [pathItem 12 [] true; pathItem 13 [] true])
              [pathItem 10 [] true; pathItem 11 [] true]
              [pathItem 12 [] true; pathItem 13 [] true])
    as (H1 & _ & _ & H4);
    [lia | reflexivity | reflexivity | repeat constructor
    | reflexivity | reflexivity | repeat constructor |].
  split; [exact H1|].
  apply (H4 (Host.remove []) _ [] [] []). reflexivity.
Defined.

(** * Further properties *)

(** ** Fingerprints: when two keys are equal *)

Module KeyFacts.

Import JS Chars Num Fingerprint.

Lemma toFixed_same (f : nat) (x y : Q) :
  toFixed x f = toFixed y f <-> coordSame f x y.
Proof.
  split; [apply toFixed_inj|].
  intros [Hs Hn]. unfold toFixed, sign. now rewrite Hs, Hn.
Qed.

Lemma fields_same (f : nat) (a b : PathPoint) :
  fields f a = fields f b <-> pointSame f a b.
Proof.
  unfold fields, pointSame. split.
  - intros H. injection H as H1 H2 H3 H4 H5 H6 H7.
    apply toFixed_same in H1, H2, H3, H4, H5, H6.
    apply PointType_toString_inj in H7. tauto.
  - intros (H1 & H2 & H3 & H4 & H5 & H6 & H7).
    apply toFixed_same in H1, H2, H3, H4, H5, H6.
    now rewrite H1, H2, H3, H4, H5, H6, H7.
Qed.

Lemma tokens_same (f : nat) (l1 l2 : list PathPoint) :
  map (pointHash f) l1 = map (pointHash f) l2 <-> Forall2 (pointSame f) l1 l2.
Proof.
  revert l2; induction l1 as [|a l1 IH]; intros [|b l2]; cbn [map].
  - split; [constructor | reflexivity].
  - split; [discriminate | intros H; inversion H].
  - split; [discriminate | intros H; inversion H].
  - split.
    + intros H. injection H as Hab Hl. constructor.
      * apply fields_same. now apply pointHash_inj.
      * now apply IH.
    + intros H. inversion H as [|? ? ? ? Hab Hl]; subst.
      apply fields_same in Hab. apply IH in Hl.
      f_equal; [unfold pointHash; now rewrite Hab | exact Hl].
Qed.

Lemma pointHash_nonempty (p : nat) (pt : PathPoint) : pointHash p pt <> "".
Proof.
  unfold pointHash, fields.
  change (toFixed (fst (anchor pt)) p +++ "," +++ join ","
            [toFixed (snd (anchor pt)) p; toFixed (fst (leftDirection pt)) p;
             toFixed (snd (leftDirection pt)) p;
             toFixed (fst (rightDirection pt)) p;
             toFixed (snd (rightDirection pt)) p;
             PointType_toString (pointType pt)] <> "").
  destruct (toFixed (fst (anchor pt)) p); discriminate.
Qed.

Lemma joined_nonempty (p : nat) (a : PathPoint) (l : list PathPoint) :
  join ";" (map (pointHash p) (a :: l)) <> "".
Proof.
  cbn [map]. pose proof (pointHash_nonempty p a) as H.
  destruct l as [|b l]; [exact H|].
  change (pointHash p a +++ ";" +++ join ";" (map (pointHash p) (b :: l)) <> "").
  destruct (pointHash p a); [congruence | discriminate].
Qed.

Lemma pathToHash_empty (p : nat) (path : PageItem) :
  pathToHash p path = "" <-> pointsOf path = [].
Proof.
  split.
  - intros H. destruct (pointsOf path) as [|a l] eqn:E; [reflexivity|].
    exfalso. apply (pathToHash_nonempty p path); [congruence | exact H].
  - intros H. now rewrite pathToHash_unfold, H.
Qed.

Lemma pathToHash_pieces (p : nat) (path : PageItem) :
  pathToHash p path = join "|" (pieces p path).
Proof.
  rewrite pathToHash_unfold. unfold pieces.
  destruct (pointsOf path); reflexivity.
Qed.

Lemma pieces_barFree (p : nat) (path : PageItem) :
  Forall (fun s => all isBarFree s = true) (pieces p path).
Proof.
  unfold pieces. destruct (pointsOf path) as [|a l].
  - constructor; [reflexivity | constructor].
  - constructor; [apply joined_barFree|].
    constructor; [|constructor]. unfold marker.
    destruct (closed path); reflexivity.
Qed.

Lemma pieces_nonempty (p : nat) (path : PageItem) : pieces p path <> [].
Proof. unfold pieces. destruct (pointsOf path); discriminate. Qed.

Lemma join_app (sep : string) (l1 l2 : list string) :
  l1 <> [] -> l2 <> [] ->
  join sep (l1 ++ l2) = join sep l1 +++ sep +++ join sep l2.
Proof.
  induction l1 as [|x l1 IH]; intros H1 H2; [congruence|].
  destruct l1 as [|y l1].
  - destruct l2 as [|z l2]; [congruence | reflexivity].
  - change (x +++ sep +++ join sep ((y :: l1) ++ l2)
            = (x +++ sep +++ join sep (y :: l1)) +++ sep +++ join sep l2).
    rewrite IH by (assumption || discriminate).
    now rewrite !Str.append_assoc.
Qed.

(** Joining fingerprints with "|" is joining their parts. *)
Lemma join_hashes (p : nat) (xs : list PageItem) :
  join "|" (map (pathToHash p) xs) = join "|" (flat_map (pieces p) xs).
Proof.
  induction xs as [|x xs IH]; [reflexivity|].
  destruct xs as [|y xs].
  - cbn [map flat_map]. rewrite app_nil_r. apply pathToHash_pieces.
  - change (pathToHash p x +++ "|" +++ join "|" (map (pathToHash p) (y :: xs))
            = join "|" (pieces p x ++ flat_map (pieces p) (y :: xs))).
    rewrite join_app, IH, pathToHash_pieces; [reflexivity | apply pieces_nonempty|].
    cbn [flat_map]. intros E. apply app_eq_nil in E as [E _].
    now apply pieces_nonempty in E.
Qed.

Lemma cons_inj {A : Type} (a b : A) (l m : list A) :
  a :: l = b :: m -> a = b /\ l = m.
Proof. intros H. injection H. auto. Qed.

(** The parts determine the fingerprints they come from. *)
Lemma pieces_decode (p : nat) (xs ys : list PageItem) :
  flat_map (pieces p) xs = flat_map (pieces p) ys ->
  map (pathToHash p) xs = map (pathToHash p) ys.
Proof.
  revert ys; induction xs as [|x xs IH]; intros [|y ys] H; cbn [flat_map] in H.
  - reflexivity.
  - exfalso. symmetry in H. apply app_eq_nil in H as [H _].
    now apply pieces_nonempty in H.
  - exfalso. apply app_eq_nil in H as [H _]. now apply pieces_nonempty in H.
  - cbn [map]. rewrite !pathToHash_pieces. unfold pieces at 1 3 in H.
    unfold pieces at 1 2.
    destruct (pointsOf x) as [|a l], (pointsOf y) as [|b m]; cbn [app] in H.
    + apply cons_inj in H as [_ H]. now rewrite (IH ys H).
    + exfalso. apply cons_inj in H as [H _].
      exact (joined_nonempty p b m (eq_sym H)).
    + exfalso. apply cons_inj in H as [H _]. exact (joined_nonempty p a l H).
    + apply cons_inj in H as [H1 H]. apply cons_inj in H as [H2 H3].
      now rewrite H1, H2, (IH ys H3).
Qed.

Lemma hashes_inj (p : nat) (xs ys : list PageItem) :
  xs <> [] -> ys <> [] ->
  join "|" (map (pathToHash p) xs) = join "|" (map (pathToHash p) ys) ->
  map (pathToHash p) xs = map (pathToHash p) ys.
Proof.
  intros Hx Hy H. rewrite !join_hashes in H. apply pieces_decode.
  apply (Str.join_inj "|" isBarFree); try reflexivity; try exact H.
  - apply Forall_flat_map. apply Forall_forall. intros; apply pieces_barFree.
  - apply Forall_flat_map. apply Forall_forall. intros; apply pieces_barFree.
  - destruct xs as [|x xs]; [congruence|]. cbn [flat_map]. intros E.
    apply app_eq_nil in E as [E _]. now apply pieces_nonempty in E.
  - destruct ys as [|y ys]; [congruence|]. cbn [flat_map]. intros E.
    apply app_eq_nil in E as [E _]. now apply pieces_nonempty in E.
Qed.

(** A list of fingerprints rearranged is a list of fingerprints. *)
Lemma perm_of_map {A B : Type} (h : A -> B) (xs : list A) (l : list B) :
  Permutation (map h xs) l -> exists ys, l = map h ys /\ Permutation xs ys.
Proof.
  intros H. symmetry in H. apply Permutation_map_inv in H as (ys & -> & H).
  exists ys. split; [reflexivity | exact H].
Qed.

Lemma sorted_hashes (p : nat) (xs : list PageItem) :
  exists ys, sort (map (pathToHash p) xs) = map (pathToHash p) ys
             /\ Permutation xs ys.
Proof.
  apply perm_of_map. symmetry. apply Sorting.sort_perm.
Qed.

End KeyFacts.

Import JS Chars Num Fingerprint KeyFacts.

(** X1. Two items have the same path fingerprint exactly when they have
    the same number of control points, corresponding coordinates print
    alike at the precision (same sign, same rounded integer), the kind
    tags agree and, when there is a point, the closed flags agree.
    Nothing else of an item enters its fingerprint. *)
Theorem same_fingerprint_iff (p : nat) (s1 s2 : PageItem) :
  pathToHash p s1 = pathToHash p s2 <->
  Forall2 (pointSame p) (pointsOf s1) (pointsOf s2)
  /\ (pointsOf s1 <> [] -> closed s1 = closed s2).
Proof.
  split.
  - intros H. destruct (pathToHash_inj p s1 s2 H) as [Hm Hc].
    split; [now apply tokens_same | exact Hc].
  - intros [Hp Hc]. apply tokens_same in Hp.
    rewrite !pathToHash_unfold.
    destruct (pointsOf s1) as [|a l] eqn:E1, (pointsOf s2) as [|b m] eqn:E2;
      try discriminate; [reflexivity|].
    rewrite Hp. unfold marker. rewrite Hc by discriminate. reflexivity.
Qed.

(** X2. The path fingerprint is the empty string exactly for an item
    without control points. *)
Theorem no_points_iff_empty_key (p : nat) (path : PageItem) :
  pathToHash p path = "" <-> pointsOf path = [].
Proof. apply pathToHash_empty. Qed.

(** X3. Two compound paths that both have sub-paths have the same key
    exactly when the fingerprints of their sub-paths are the same up to
    order. *)
Theorem compound_same_key_iff (p : nat) (c c' : PageItem)
    (subs subs' : list PageItem) :
  pathItems c = Some subs -> pathItems c' = Some subs' ->
  subs <> [] -> subs' <> [] ->
  (compoundPathToHash p c = compoundPathToHash p c' <->
   Permutation (map (pathToHash p) subs) (map (pathToHash p) subs')).
Proof.
  intros E E' Hne Hne'. rewrite !compoundPathToHash_unfold, E, E'.
  destruct subs as [|x xs]; [congruence|].
  destruct subs' as [|y ys]; [congruence|].
  split.
  - intros H.
    destruct (sorted_hashes p (x :: xs)) as (l & Hl & Pl).
    destruct (sorted_hashes p (y :: ys)) as (m & Hm & Pm).
    rewrite Hl, Hm in H. apply hashes_inj in H.
    + rewrite <- (Sorting.sort_perm (map (pathToHash p) (x :: xs))), Hl, H,
        <- Hm. apply Sorting.sort_perm.
    + intros ->. apply Permutation_sym, Permutation_nil in Pl. discriminate.
    + intros ->. apply Permutation_sym, Permutation_nil in Pm. discriminate.
  - intros H. now rewrite (Sorting.sort_permutation_invariant _ _ H).
Qed.

Lemma compound_same_key_iff_witness :
  compoundPathToHash 1
    (compoundPathItem 9 [outlineBelowHalf; pathItem 3 [] true])
  = compoundPathToHash 1
      (compoundPathItem 8 [pathItem 4 [] false; outlineAboveHalf]).
Proof.
  apply (compound_same_key_iff 1
           (compoundPathItem 9 [outlineBelowHalf; pathItem 3 [] true])
           (compoundPathItem 8 [pathItem 4 [] false; outlineAboveHalf])
           [outlineBelowHalf; pathItem 3 [] true]
           [pathItem 4 [] false; outlineAboveHalf]);
    [reflexivity | reflexivity | discriminate | discriminate |].
  apply perm_swap.
Defined.

(** X4. The key of a compound path is the empty string exactly when it
    has no sub-path, or a single sub-path without control points. *)
Theorem compound_empty_key_iff (p : nat) (c : PageItem) :
  compoundPathToHash p c = "" <->
  match pathItems c with
  | None | Some [] => True
  | Some [s] => pointsOf s = []
  | Some (_ :: _ :: _) => False
  end.
Proof.
  rewrite compoundPathToHash_unfold.
  destruct (pathItems c) as [[|x [|y xs]]|]; try tauto.
  - cbn [map sort fold_right insert join]. apply pathToHash_empty.
  - split; [|tauto]. intros H. exfalso.
    pose proof (Permutation_length
                  (Sorting.sort_perm (map (pathToHash p) (x :: y :: xs)))) as L.
    destruct (sort (map (pathToHash p) (x :: y :: xs))) as [|a [|b l]];
      cbn [length map] in L; try discriminate.
    change (a +++ "|" +++ join "|" (b :: l) = "") in H.
    destruct a; discriminate.
Qed.

(** ** The traversal: what is collected, and from where *)

Module TraversalFacts.

Import Collect.

Lemma Subseq_nil_l {A : Type} (l : list A) : Subseq [] l.
Proof. induction l; [apply Subseq_nil | now apply Subseq_skip]. Qed.

Lemma Subseq_refl {A : Type} (l : list A) : Subseq l l.
Proof. induction l; [apply Subseq_nil | now apply Subseq_keep]. Qed.

Lemma Subseq_app {A : Type} (a b c d : list A) :
  Subseq a b -> Subseq c d -> Subseq (a ++ c) (b ++ d).
Proof.
  induction 1 as [|x l m _ IH|x l m _ IH]; intros Hcd; cbn [app].
  - exact Hcd.
  - apply Subseq_skip. now apply IH.
  - apply Subseq_keep. now apply IH.
Qed.

Lemma Subseq_In {A : Type} (l m : list A) (x : A) :
  Subseq l m -> In x l -> In x m.
Proof.
  induction 1 as [|y l m _ IH|y l m _ IH]; cbn [In]; intuition.
Qed.

Lemma Subseq_map {A B : Type} (f : A -> B) (l m : list A) :
  Subseq l m -> Subseq (map f l) (map f m).
Proof.
  induction 1; cbn [map];
    [apply Subseq_nil | apply Subseq_skip | apply Subseq_keep]; assumption.
Qed.

Lemma Subseq_NoDup {A : Type} (l m : list A) :
  Subseq l m -> NoDup m -> NoDup l.
Proof.
  induction 1 as [|y l m H IH|y l m H IH]; intros ND.
  - constructor.
  - inversion ND; auto.
  - inversion ND as [|? ? Hn ND']; subst. constructor; [|auto].
    intros Hin. apply Hn. eapply Subseq_In; eassumption.
Qed.

Lemma Subseq_flat_map {A B : Type} (f g : A -> list B) (l : list A) :
  (forall x, In x l -> Subseq (f x) (g x)) ->
  Subseq (flat_map f l) (flat_map g l).
Proof.
  induction l as [|x l IH]; intros H; cbn [flat_map]; [apply Subseq_nil|].
  apply Subseq_app; [apply H; now left|]. apply IH. intros; apply H; now right.
Qed.

Lemma descendants_unfold (x : PageItem) :
  descendants x =
  match pageItems x with
  | None => []
  | Some items => flat_map subtree items
  end.
Proof.
  destruct x as [i ty l h g c pts cl subs [items|]];
    cbn [descendants pageItems]; [|reflexivity].
  induction items as [|y items IH]; [reflexivity|].
  cbn [flat_map subtree app]. now rewrite IH.
Qed.

(** A child contributes the child itself at most once, and otherwise
    only what lies below it. *)
Lemma collectPathsOf_subseq (t : string) (container : PageItem) :
  Subseq (collectPathsOf t container []) (descendants container).
Proof.
  induction container as [container IH] using PageItem_children_ind.
  rewrite collectPathsOf_children, descendants_unfold. cbn [app].
  destruct (pageItems container) as [items|]; [|apply Subseq_nil].
  specialize (IH items eq_refl). rewrite Forall_forall in IH.
  apply Subseq_flat_map. intros x Hx. unfold contribution, collectStep, subtree.
  destruct (skipped x); [apply Subseq_nil_l|].
  destruct (String.eqb (typename x) t).
  - destruct (String.eqb_spec t "PathItem") as [Hp|Hp];
      destruct (String.eqb_spec t "CompoundPathItem") as [Hc|Hc];
      try congruence;
      destruct (nonEmpty (pathPoints x)); destruct (nonEmpty (pathItems x));
      cbn [andb app];
      first [apply Subseq_nil_l | apply Subseq_keep, Subseq_nil_l].
  - destruct (isContainerType (typename x)); [|apply Subseq_nil_l].
    apply Subseq_skip. now apply IH.
Qed.

(** What is collected has the requested type name and geometry of that
    kind. *)
Lemma collectPathsOf_geometry (t : string) (container : PageItem) :
  Forall (fun x => typename x = t
                   /\ (t = "PathItem" -> nonEmpty (pathPoints x) = true)
                   /\ (t = "CompoundPathItem" ->
                       nonEmpty (pathItems x) = true))
    (collectPathsOf t container []).
Proof.
  induction container as [container IH] using PageItem_children_ind.
  rewrite collectPathsOf_children. cbn [app].
  destruct (pageItems container) as [items|]; [|constructor].
  specialize (IH items eq_refl). rewrite Forall_forall in IH.
  apply Forall_forall. intros y Hy. apply in_flat_map in Hy as (x & Hx & Hy).
  unfold contribution, collectStep in Hy.
  destruct (skipped x); [destruct Hy|].
  destruct (String.eqb_spec (typename x) t) as [Ht|Ht].
  - destruct (String.eqb_spec t "PathItem") as [Hp|Hp];
      destruct (nonEmpty (pathPoints x)) eqn:Hn;
      destruct (String.eqb_spec t "CompoundPathItem") as [Hc|Hc];
      destruct (nonEmpty (pathItems x)) eqn:Hm;
      cbn [andb app In] in Hy;
      repeat (destruct Hy as [Hy|Hy]); try contradiction; subst y;
      (split; [exact Ht | split; congruence]).
  - destruct (isContainerType (typename x)); [|destruct Hy].
    specialize (IH x Hx). rewrite Forall_forall in IH. now apply IH.
Qed.

(** A type name other than the two the loop tests for collects
    nothing. *)
Lemma collectPathsOf_other (t : string) (container : PageItem) :
  t <> "PathItem" -> t <> "CompoundPathItem" ->
  collectPathsOf t container [] = [].
Proof.
  intros Hp Hc.
  induction container as [container IH] using PageItem_children_ind.
  rewrite collectPathsOf_children. cbn [app].
  destruct (pageItems container) as [items|]; [|reflexivity].
  specialize (IH items eq_refl). rewrite Forall_forall in IH.
  induction items as [|x items IHl]; [reflexivity|].
  cbn [flat_map]. rewrite IHl by (intros; apply IH; now right).
  rewrite app_nil_r. unfold contribution, collectStep.
  destruct (skipped x); [reflexivity|].
  destruct (String.eqb (typename x) t).
  - destruct (String.eqb_spec t "PathItem"); [contradiction|].
    destruct (String.eqb_spec t "CompoundPathItem"); [contradiction|].
    reflexivity.
  - destruct (isContainerType (typename x)); [|reflexivity].
    apply IH. now left.
Qed.

(** The loop over the layer indices is the loop over the layers. *)
Lemma index_loop {A B : Type} (g : A -> B -> A) (l : list B) :
  forall (pre : list B) (a : A),
    fold_left
      (fun acc i =>
         match nth_error (pre ++ l) i with
         | Some x => g acc x
         | None => acc
         end)
      (seq (length pre) (length l)) a
    = fold_left g l a.
Proof.
  induction l as [|x l IH]; intros pre a; [reflexivity|].
  cbn [length seq fold_left].
  rewrite nth_error_app2, Nat.sub_diag by lia. cbn [nth_error].
  specialize (IH (pre ++ [x]) (g a x)).
  rewrite <- app_assoc, length_app, Nat.add_1_r in IH. exact IH.
Qed.

Lemma collectInLayers_all (doc : Document) (t : option string) :
  collectInLayers doc (length (layers doc)) t []
  = flat_map (fun layer => collectPaths layer [] t) (layers doc).
Proof.
  unfold collectInLayers.
  pose proof (index_loop (fun paths layer => collectPaths layer paths t)
                (layers doc) [] []) as H.
  cbn [app length] in H. rewrite H. clear H.
  rewrite (fold_append (fun paths layer => collectPaths layer paths t));
    [reflexivity|].
  intros x _ acc. unfold collectPaths.
  rewrite (collectPathsOf_children _ x acc), (collectPathsOf_children _ x []).
  reflexivity.
Qed.

Lemma collectInLayers_subseq (doc : Document) (t : option string) :
  Subseq (collectInLayers doc (length (layers doc)) t [])
    (flat_map descendants (layers doc)).
Proof.
  rewrite collectInLayers_all. apply Subseq_flat_map.
  intros x _. apply collectPathsOf_subseq.
Qed.

End TraversalFacts.

Import Collect TraversalFacts.

(** X5. [collectPaths] only appends: the array it is given comes back
    as a prefix, followed by what the same call collects into an empty
    array. *)
Theorem collectPaths_appends (container : PageItem) (paths : list PageItem)
    (t : option string) :
  collectPaths container paths t = paths ++ collectPaths container [] t.
Proof.
  unfold collectPaths.
  rewrite (collectPathsOf_children _ container paths),
    (collectPathsOf_children _ container []).
  reflexivity.
Qed.

(** X6. Every item [collectPaths] adds has the type name asked for
    ("PathItem" when none is given), and geometry of that kind: a path
    has at least one control point, a compound path at least one
    sub-path. *)
Theorem collected_have_geometry (container : PageItem) (t : option string)
    (x : PageItem) :
  In x (collectPaths container [] t) ->
  let wanted := match t with None => "PathItem" | Some s => s end in
  typename x = wanted
  /\ (wanted = "PathItem" -> nonEmpty (pathPoints x) = true)
  /\ (wanted = "CompoundPathItem" -> nonEmpty (pathItems x) = true).
Proof.
  unfold collectPaths. intros H.
  pose proof (collectPathsOf_geometry
                match t with None => "PathItem" | Some s => s end container)
    as G.
  rewrite Forall_forall in G. exact (G x H).
Qed.

Lemma collected_have_geometry_witness :
  typename (pathItem 1 [cornerAt 0 0] true) = "PathItem"
  /\ ("PathItem" = "PathItem" ->
      nonEmpty (pathPoints (pathItem 1 [cornerAt 0 0] true)) = true)
  /\ ("PathItem" = "CompoundPathItem" ->
      nonEmpty (pathItems (pathItem 1 [cornerAt 0 0] true)) = true).
Proof.
  apply (collected_have_geometry
           (layer 0 [pathItem 7 [] true; pathItem 1 [cornerAt 0 0] true])
           None (pathItem 1 [cornerAt 0 0] true)).
  left. reflexivity.
Defined.

(** X7. Asked for a type name other than "PathItem" and
    "CompoundPathItem", [collectPaths] leaves the array as it is: items
    of that type are matched, not added and not descended into. *)
Theorem other_type_collects_nothing (container : PageItem)
    (paths : list PageItem) (t : string) :
  t <> "PathItem" -> t <> "CompoundPathItem" ->
  collectPaths container paths (Some t) = paths.
Proof.
  intros Hp Hc. unfold collectPaths.
  rewrite collectPathsOf_children, <- (app_nil_l (match pageItems container with
                                                   | Some items => _
                                                   | None => [] end)).
  rewrite <- collectPathsOf_children, collectPathsOf_other by assumption.
  apply app_nil_r.
Qed.

Lemma other_type_collects_nothing_witness :
  collectPaths
    (layer 0 [mkPageItem 5 "GroupItem" false false false false None false
                None (Some [pathItem 6 [cornerAt 0 0] true])])
    [] (Some "GroupItem") = [].
Proof.
  apply other_type_collects_nothing; discriminate.
Defined.

(** X8. What [collectPaths] collects is taken from below the container
    in document order, each object at most once. *)
Theorem collected_in_document_order (container : PageItem)
    (t : option string) :
  Subseq (collectPaths container [] t) (descendants container).
Proof. unfold collectPaths. apply collectPathsOf_subseq. Qed.

(** X9. In a document whose objects below the layers have distinct
    identities, the candidates of phase 1 are distinct, and so are the
    candidates of phase 2 when nothing is selected. *)
Theorem candidates_distinct (doc : Document) :
  NoDup (map uid (flat_map descendants (layers doc))) ->
  NoDup (map uid (compoundCandidates doc))
  /\ (selection doc = None \/ selection doc = Some [] ->
      NoDup (map uid (candidatePaths doc (length (layers doc))))).
Proof.
  intros ND. split.
  - eapply Subseq_NoDup; [|exact ND]. apply Subseq_map.
    apply collectInLayers_subseq.
  - intros Hsel. unfold candidatePaths.
    destruct Hsel as [-> | ->];
      (eapply Subseq_NoDup; [|exact ND]); apply Subseq_map;
      apply collectInLayers_subseq.
Qed.

Lemma candidates_distinct_witness :
  NoDup (map uid
           (candidatePaths
              (mkDocument
                 [layer 0 [pathItem 1 [cornerAt 0 0] true;
                           pathItem 2 [cornerAt 0 0] true]] None) 1)).
Proof.
  apply (candidates_distinct
           (mkDocument
              [layer 0 [pathItem 1 [cornerAt 0 0] true;
                        pathItem 2 [cornerAt 0 0] true]] None)).
  - cbn. repeat constructor; cbn; intuition discriminate.
  - left. reflexivity.
Defined.

(** ** Groups: lookup and counting *)

Module GroupFacts.

Import Grouping Dedup.

Section WithHash.

Variable hashOf : PageItem -> string.

Lemma In_key_entry (k : string) (t : HashTable) :
  In k (map fst t) -> exists g, In (k, g) t.
Proof.
  intros H. apply in_map_iff in H as ([k' g] & <- & H). now exists g.
Qed.

Lemma lookup_members (items : list PageItem) (k : string) :
  lookup k (groupByHash hashOf items) =
  if String.eqb k "" then None
  else match members hashOf k items with
       | [] => None
       | g => Some g
       end.
Proof.
  destruct (groupByHash_grouped hashOf items) as (ND & Hent & Hkeys).
  destruct (String.eqb_spec k "") as [->|Hk].
  - apply lookup_None. intros H. apply In_key_entry in H as (g & H).
    now destruct (Hent _ _ H) as (Hne & _).
  - destruct (lookup k (groupByHash hashOf items)) as [g|] eqn:E.
    + apply lookup_Some in E. destruct (Hent _ _ E) as (_ & Hg & ->).
      destruct (members hashOf k items); [congruence | reflexivity].
    + destruct (members hashOf k items) as [|y l] eqn:Em; [reflexivity|].
      exfalso. apply lookup_None in E. apply E.
      assert (Hy : In y (members hashOf k items)) by (rewrite Em; now left).
      apply members_key in Hy as [Hyk Hy]. rewrite <- Hyk.
      apply Hkeys; [exact Hy | congruence].
Qed.

Lemma stored_app (t1 t2 : HashTable) :
  stored (t1 ++ t2) = (stored t1 + stored t2)%nat.
Proof. unfold stored. now rewrite flat_map_app, length_app. Qed.

Lemma stored_push (h : string) (x : PageItem) (t : HashTable) :
  In h (map fst t) -> stored (push h x t) = S (stored t).
Proof.
  unfold stored. induction t as [|[k g] t IH]; cbn [map fst In push]; [tauto|].
  intros H. destruct (String.eqb_spec k h) as [->|Hne].
  - cbn [flat_map snd]. rewrite !length_app. cbn [length]. lia.
  - destruct H as [H|H]; [contradiction|].
    cbn [flat_map snd]. rewrite !length_app, (IH H). lia.
Qed.

Lemma stored_groupStep (t : HashTable) (x : PageItem) :
  stored (groupStep hashOf t x)
  = (stored t + if JS.truthy (hashOf x) then 1 else 0)%nat.
Proof.
  unfold groupStep. destruct (JS.truthy (hashOf x)); cbn [negb]; [|lia].
  destruct (lookup (hashOf x) t) as [g|] eqn:E.
  - rewrite stored_push; [lia|]. apply lookup_Some in E.
    apply in_map_iff. now exists (hashOf x, g).
  - rewrite stored_push; [rewrite stored_app; cbn; lia|].
    rewrite map_app. apply in_app_iff. right. now left.
Qed.

Lemma stored_groupByHash (items : list PageItem) :
  stored (groupByHash hashOf items) = length (keyed hashOf items).
Proof.
  induction items as [|x items IH] using rev_ind; [reflexivity|].
  rewrite groupByHash_snoc, stored_groupStep, IH. unfold keyed.
  rewrite filter_app, length_app. cbn [filter].
  destruct (JS.truthy (hashOf x)); reflexivity.
Qed.

Lemma tails_count (t : HashTable) :
  (forall k g, In (k, g) t -> g <> []) ->
  (length (flat_map (fun g => skipn 1 (snd g)) t) + length t)%nat = stored t.
Proof.
  unfold stored. induction t as [|[k g] t IH]; intros H; [reflexivity|].
  cbn [flat_map snd length]. rewrite !length_app.
  specialize (IH (fun k' g' Hin => H k' g' (or_intror Hin))).
  assert (Hg : g <> []) by (apply (H k); now left).
  destruct g as [|y g]; [congruence|].
  change (skipn 1 (y :: g)) with g. cbn [length]. lia.
Qed.

Lemma duplicates_count (items : list PageItem) :
  (length (duplicates hashOf items) + length (groupByHash hashOf items))%nat
  = length (keyed hashOf items).
Proof.
  unfold duplicates. rewrite tails_count; [apply stored_groupByHash|].
  destruct (groupByHash_grouped hashOf items) as (_ & Hent & _).
  intros k g Hin. now destruct (Hent k g Hin) as (_ & Hg & _).
Qed.

End WithHash.

End GroupFacts.

(** ** Runs: what is removed and what is reported *)

Module RunFacts.

Import JS Chars Num Grouping Dedup Collect Engine TraversalFacts.

Lemma collectInLayers_Forall (P : PageItem -> Prop) (doc : Document)
    (n : nat) (t : option string) :
  (forall layer, Forall P (collectPaths layer [] t)) ->
  Forall P (collectInLayers doc n t []).
Proof.
  intros H. unfold collectInLayers.
  assert (G : forall l acc, Forall P acc ->
    Forall P
      (fold_left
         (fun paths i =>
            match nth_error (layers doc) i with
            | Some layer => collectPaths layer paths t
            | None => paths
            end) l acc)).
  { induction l as [|i l IH]; intros acc Hacc; [exact Hacc|].
    cbn [fold_left]. apply IH.
    destruct (nth_error (layers doc) i) as [layer|]; [|exact Hacc].
    unfold collectPaths in *. rewrite collectPathsOf_children.
    rewrite <- (app_nil_l (match pageItems layer with
                           | Some items => _ | None => [] end)).
    rewrite <- collectPathsOf_children.
    apply Forall_app. split; [exact Hacc | apply H]. }
  apply G. constructor.
Qed.

Lemma compoundCandidates_typed (doc : Document) :
  Forall (fun x => typename x = "CompoundPathItem"
                   /\ nonEmpty (pathItems x) = true)
    (compoundCandidates doc).
Proof.
  apply collectInLayers_Forall. intros layer. unfold collectPaths.
  eapply Forall_impl; [|apply collectPathsOf_geometry].
  intros x (Ht & _ & Hc). split; [exact Ht | now apply Hc].
Qed.

Lemma selectionStep_typed (x : PageItem) :
  Forall (fun y => typename y = "PathItem") (selectionStep [] x).
Proof.
  unfold selectionStep. destruct (skipped x); [constructor|].
  destruct (String.eqb_spec (typename x) "PathItem") as [Ht|Ht].
  - constructor; [exact Ht | constructor].
  - destruct (isContainerType (typename x)); [|constructor].
    unfold collectPaths. eapply Forall_impl; [|apply collectPathsOf_geometry].
    now intros y (Hy & _).
Qed.

Lemma candidatePaths_typed (doc : Document) (n : nat) :
  Forall (fun y => typename y = "PathItem") (candidatePaths doc n).
Proof.
  assert (W : Forall (fun y => typename y = "PathItem")
                (collectInLayers doc n None [])).
  { apply collectInLayers_Forall. intros layer. unfold collectPaths.
    eapply Forall_impl; [|apply collectPathsOf_geometry].
    now intros y (Hy & _). }
  unfold candidatePaths. destruct (selection doc) as [[|x sel]|]; try exact W.
  rewrite selection_loop. apply Forall_flat_map, Forall_forall.
  intros z _. apply selectionStep_typed.
Qed.

Lemma selectionStep_within (x : PageItem) :
  incl (selectionStep [] x) (subtree x).
Proof.
  unfold selectionStep, subtree. intros y Hy.
  destruct (skipped x); [destruct Hy|].
  destruct (String.eqb (typename x) "PathItem").
  - destruct Hy as [<-|[]]. now left.
  - destruct (isContainerType (typename x)); [|destruct Hy].
    right. eapply Subseq_In; [apply collectPathsOf_subseq | exact Hy].
Qed.

Lemma selected_within (doc : Document) (n : nat) (sel : list PageItem) :
  selection doc = Some sel -> sel <> [] ->
  incl (candidatePaths doc n) (flat_map subtree sel).
Proof.
  intros E Hne. unfold candidatePaths. rewrite E.
  destruct sel as [|s sel]; [congruence|].
  change (incl (fold_left selectionStep (s :: sel) [])
            (flat_map subtree (s :: sel))).
  rewrite selection_loop. intros y Hy.
  apply in_flat_map in Hy as (x & Hx & Hy). apply in_flat_map.
  exists x. split; [exact Hx | now apply selectionStep_within].
Qed.

Lemma In_alerts (m : string) (evs : list Event) :
  In (EvAlert m) evs -> In m (alerts evs).
Proof.
  intros H. unfold alerts. apply in_flat_map. exists (EvAlert m).
  split; [exact H | now left].
Qed.

Lemma summary_not_nothingEligible (a b : nat) : summary a b <> nothingEligible.
Proof. unfold summary, nothingEligible. cbn [append]. discriminate. Qed.

(** The two counts can be read back from the final message. *)
Lemma digits_then_space (a a' : nat) (r r' : string) :
  decimalDigits (Z.of_nat a) +++ String " " r
  = decimalDigits (Z.of_nat a') +++ String " " r' ->
  a = a' /\ r = r'.
Proof.
  intros H.
  apply (Str.split_at " " isDigit) in H;
    [|reflexivity | apply decimalDigits_all; lia | apply decimalDigits_all; lia].
  destruct H as [H Hr]. split; [|exact Hr].
  apply decimalDigits_inj in H; lia.
Qed.

End RunFacts.

Import Grouping Dedup Engine GroupFacts RunFacts.

(** X10. After grouping, looking a key up in the table gives the
    candidates with that key in collection order; the empty key and a
    key no candidate has are absent. *)
Theorem lookup_after_grouping (hashOf : PageItem -> string)
    (items : list PageItem) (k : string) :
  lookup k (groupByHash hashOf items) =
  if String.eqb k "" then None
  else match members hashOf k items with
       | [] => None
       | g => Some g
       end.
Proof. apply lookup_members. Qed.

(** X11. Each group spares exactly one of its members: the number of
    items [remove()] is called on plus the number of groups is the
    number of candidates with a non-empty key. *)
Theorem one_spared_per_group (hashOf : PageItem -> string)
    (items : list PageItem) :
  (length (duplicates hashOf items) + length (groupByHash hashOf items))%nat
  = length (keyed hashOf items).
Proof. apply duplicates_count. Qed.

(** X12. In every run, [remove()] is called in phase 1 only on
    compound paths with a sub-path and in phase 2 only on paths, and in
    neither phase on an item that is locked, hidden, a guide or a
    clipping mask. *)
Theorem only_eligible_items_removed
    (hostRemove : PageItem -> Document -> Document * option string)
    (p : nat) (doc : Document) :
  exists doc1 ev1 ev2,
    twoPhases p doc (main hostRemove p (Some doc)) doc1 ev1 ev2
    /\ Forall (fun x => typename x = "CompoundPathItem"
                        /\ nonEmpty (pathItems x) = true /\ ~ flagged x)
         (removeTargets ev1)
    /\ Forall (fun x => typename x = "PathItem" /\ ~ flagged x)
         (removeTargets ev2).
Proof.
  destruct (main_twoPhases hostRemove p doc) as (doc1 & ev1 & ev2 & H).
  exists doc1, ev1, ev2. split; [exact H|].
  destruct H as ((T1 & _) & (T2 & _) & _). rewrite T1, T2.
  split; apply Forall_forall; intros x Hx; apply duplicates_In in Hx as [Hx _].
  - pose proof (compoundCandidates_typed doc) as A.
    pose proof (Collect.collectInLayers_unskipped doc (length (layers doc))
                  (Some "CompoundPathItem")) as B.
    rewrite Forall_forall in A, B. destruct (A x Hx) as [A1 A2].
    repeat split; try assumption. apply Facts.unskipped_not_flagged.
    now apply B.
  - pose proof (candidatePaths_typed doc1 (length (layers doc))) as A.
    pose proof (Collect.candidatePaths_unskipped doc1 (length (layers doc)))
      as B.
    rewrite Forall_forall in A, B. split; [now apply A|].
    apply Facts.unskipped_not_flagged. now apply B.
Qed.

(** X15. The final message determines the two counts it reports. *)
Theorem summary_determines_counts (a b a' b' : nat) :
  summary a b = summary a' b' -> a = a' /\ b = b'.
Proof.
  unfold summary. intros H. apply Str.append_inv_head in H.
  change (" duplicate path item" +++ ?r)
    with (String " " ("duplicate path item" +++ r)) in H.
  apply digits_then_space in H as [-> H]. split; [reflexivity|].
  do 2 apply Str.append_inv_head in H.
  change (" duplicate compound path" +++ ?r)
    with (String " " ("duplicate compound path" +++ r)) in H.
  now apply digits_then_space in H as [-> _].
Qed.

Lemma summary_determines_counts_witness : (2 = 2 /\ 0 = 0)%nat.
Proof. apply (summary_determines_counts 2 0 2 0). reflexivity. Defined.

(** X16. The alert that nothing is eligible is raised only when
    neither a compound path nor a path was found in the document as it
    was given. *)
Theorem nothing_eligible_only_if_nothing_found
    (hostRemove : PageItem -> Document -> Document * option string)
    (p : nat) (doc : Document) :
  In (EvAlert nothingEligible) (snd (main hostRemove p (Some doc))) ->
  compoundCandidates doc = []
  /\ candidatePaths doc (length (layers doc)) = [].
Proof.
  rewrite main_unfold. cbv zeta.
  destruct (nothingFound
              (candidatePaths
                 (document
                    (snd (dedupe hostRemove (compoundPathToHash p)
                            (compoundCandidates doc) (mkWorld doc []))))
                 (length (layers doc)))
              (compoundCandidates doc)) eqn:Hnf.
  - intros _. unfold nothingFound in Hnf.
    apply andb_true_iff in Hnf as [Hp Hc].
    apply Nat.eqb_eq, length_zero_iff_nil in Hc. split; [exact Hc|].
    rewrite Hc, dedupe_nil in Hp. cbn [snd document] in Hp.
    now apply Nat.eqb_eq, length_zero_iff_nil in Hp.
  - cbn [snd]. intros H. exfalso.
    destruct (dedupe_spec hostRemove (compoundPathToHash p)
                (compoundCandidates doc) (mkWorld doc []))
      as (ev1 & Hev1 & _ & (_ & _ & A1 & _)).
    destruct (dedupe hostRemove (compoundPathToHash p) (compoundCandidates doc)
                (mkWorld doc [])) as [c1 w1].
    cbn [fst snd events] in *. cbn [app] in Hev1.
    destruct (dedupe_spec hostRemove (pathToHash p)
                (candidatePaths (document w1) (length (layers doc))) w1)
      as (ev2 & Hev2 & _ & (_ & _ & A2 & _)).
    destruct (dedupe hostRemove (pathToHash p)
                (candidatePaths (document w1) (length (layers doc))) w1)
      as [c2 w2].
    cbn [fst snd] in *. rewrite Hev2, Hev1 in H.
    apply In_alerts in H. rewrite !alerts_app, A1, A2 in H.
    cbn in H. destruct H as [H|[]].
    now apply summary_not_nothingEligible in H.
Qed.

Lemma nothing_eligible_only_if_nothing_found_witness :
  compoundCandidates
    (mkDocument [layer 0 [lockedPathItem 1 [cornerAt 0 0]]] None) = []
  /\ candidatePaths
       (mkDocument [layer 0 [lockedPathItem 1 [cornerAt 0 0]]] None) 1 = [].
Proof.
  apply (nothing_eligible_only_if_nothing_found (Host.remove []) 1
           (mkDocument [layer 0 [lockedPathItem 1 [cornerAt 0 0]]] None)).
  left. reflexivity.
Defined.

(** X17. Every run, with or without an open document, raises exactly
    one alert, and the alert is the last thing the run does. *)
Theorem exactly_one_alert
    (hostRemove : PageItem -> Document -> Document * option string)
    (p : nat) (app : option Document) :
  exists evs msg,
    snd (main hostRemove p app) = evs ++ [EvAlert msg] /\ alerts evs = [].
Proof.
  destruct app as [doc|].
  - destruct (main_twoPhases hostRemove p doc) as (doc1 & ev1 & ev2 & H).
    destruct H as ((_ & _ & A1 & _) & (_ & _ & A2 & _) & (doc2 & ->)).
    eexists (ev1 ++ ev2), _. cbn [snd]. rewrite <- app_assoc.
    split; [reflexivity|]. now rewrite alerts_app, A1, A2.
  - exists [], noDocuments. split; reflexivity.
Qed.

(** ** Tolerance: how far apart duplicates can be *)

Module ToleranceFacts.

Import JS Chars Num Fingerprint KeyFacts.

Lemma isNegative_lt (x : Q) : isNegative x = true -> (x < 0)%Q.
Proof.
  unfold isNegative, Qlt. intros H. apply Z.ltb_lt in H. cbn. lia.
Qed.

Lemma isNegative_ge (x : Q) : isNegative x = false -> (0 <= x)%Q.
Proof.
  unfold isNegative, Qle. intros H. apply Z.ltb_ge in H. cbn. lia.
Qed.

Lemma coordSame_within (f : nat) (x y : Q) :
  coordSame f x y -> coordWithin f x y.
Proof.
  intros [Hs Hn]. unfold coordWithin.
  destruct (roundScaled_bounds f x) as [Lx Ux].
  destruct (roundScaled_bounds f y) as [Ly Uy].
  rewrite Hn in Lx, Ux.
  pose proof (pow10_pos f) as Hp.
  assert (HP : (0 < inject_Z (pow10 f))%Q).
  { change 0%Q with (inject_Z 0). now rewrite <- Zlt_Qlt. }
  set (P := inject_Z (pow10 f)) in *.
  assert (E : (Qabs (x - y) * P == Qabs ((Qabs x - Qabs y) * P))%Q).
  { rewrite Qabs_Qmult, (Qabs_pos P) by now apply Qlt_le_weak.
    apply Qmult_comp; [|reflexivity].
    destruct (isNegative x) eqn:Ex.
    - symmetry in Hs. apply isNegative_lt in Ex, Hs.
      rewrite (Qabs_neg x), (Qabs_neg y) by now apply Qlt_le_weak.
      rewrite <- (Qabs_opp (x - y)). apply Qabs_wd. ring.
    - symmetry in Hs. apply isNegative_ge in Ex, Hs.
      now rewrite (Qabs_pos x), (Qabs_pos y). }
  rewrite E. apply Qabs_Qlt_condition. split; lra.
Qed.

Lemma pointSame_within (f : nat) (a b : PathPoint) :
  pointSame f a b -> pointWithin f a b.
Proof.
  intros (H1 & H2 & H3 & H4 & H5 & H6 & _).
  repeat split; now apply coordSame_within.
Qed.

End ToleranceFacts.

Import JS Chars Num Fingerprint KeyFacts ToleranceFacts.

(** X18. Two items with the same path fingerprint at precision [p]
    have the same number of control points, and corresponding
    coordinates less than one unit of the [p]-th decimal apart. *)
Theorem duplicates_within_tolerance (p : nat) (s1 s2 : PageItem) :
  pathToHash p s1 = pathToHash p s2 ->
  Forall2 (pointWithin p) (pointsOf s1) (pointsOf s2).
Proof.
  intros H. destruct (pathToHash_inj p s1 s2 H) as [Hm _].
  apply tokens_same in Hm.
  eapply Forall2_impl; [|exact Hm]. intros a b. apply pointSame_within.
Qed.

Lemma duplicates_within_tolerance_witness :
  Forall2 (pointWithin 1) (pointsOf outlineBelowHalf)
    (pointsOf outlineAboveHalf).
Proof.
  apply (duplicates_within_tolerance 1 outlineBelowHalf outlineAboveHalf).
  reflexivity.
Defined.

(** * The layout of a fingerprint, first-seen retention and failure
      tolerance *)

(** ** What [toFixed] prints *)

Module LayoutFacts.

Import JS Chars Num Fingerprint FingerprintFacts.

Lemma digitChar_nonzero (d : Z) :
  (0 < d < 10)%Z -> digitChar d <> "0"%char.
Proof.
  intros Hd E. apply (f_equal nat_of_ascii) in E.
  rewrite nat_of_digitChar in E by lia. cbn in E. lia.
Qed.

Lemma digitsAux_leading (fuel : nat) :
  forall n acc, (0 < n < 2 ^ Z.of_nat fuel)%Z ->
  exists c s, digitsAux fuel n acc = String c s /\ c <> "0"%char.
Proof.
  induction fuel as [|fuel IH]; intros n acc Hn.
  - change (2 ^ Z.of_nat 0)%Z with 1%Z in Hn. lia.
  - cbn [digitsAux].
    assert (Hmod : (0 <= n mod 10 < 10)%Z) by (apply Z.mod_pos_bound; lia).
    pose proof (Z.div_mod n 10 ltac:(lia)) as Hdm.
    destruct (Z.eqb_spec (n / 10) 0) as [Hz|Hz].
    + exists (digitChar (n mod 10)), acc. split; [reflexivity|].
      apply digitChar_nonzero. rewrite Hz in Hdm. lia.
    + rewrite Nat2Z.inj_succ, Z.pow_succ_r in Hn by lia.
      apply IH. split.
      * pose proof (Z.div_pos n 10 ltac:(lia) ltac:(lia)). lia.
      * apply Z.div_lt_upper_bound; lia.
Qed.

(** The digits of a number: "0", or digits that do not start with 0. *)
Lemma decimalDigits_canonical (n : Z) :
  (0 <= n)%Z ->
  decimalDigits n = "0"
  \/ exists c r, decimalDigits n = String c r /\ c <> "0"%char.
Proof.
  intros Hn. destruct (Z.eq_dec n 0) as [->|Hnz]; [left; reflexivity|].
  right. unfold decimalDigits. apply digitsAux_leading.
  rewrite Nat2Z.inj_succ, Z2Nat.id by apply Z.log2_nonneg.
  pose proof (Z.log2_spec n ltac:(lia)). lia.
Qed.

Lemma substring_0_cons (i : nat) (c : ascii) (s : string) :
  substring 0 (S i) (String c s) = String c (substring 0 i s).
Proof. reflexivity. Qed.

Lemma substring_0_0 (s : string) : substring 0 0 s = "".
Proof. destruct s; reflexivity. Qed.

(** Steps 8b and 8c print the integer with exactly [f] digits after
    the point and no superfluous leading zero. *)
Lemma fixedDigits_layout (f : nat) (n : Z) :
  (0 <= n)%Z ->
  exists whole frac,
    fixedDigits f n = whole +++ (if (f =? 0)%nat then "" else "." +++ frac)
    /\ all isDigit whole = true /\ all isDigit frac = true
    /\ String.length frac = f
    /\ (whole = "0" \/ exists c r, whole = String c r /\ c <> "0"%char)
    /\ value (whole +++ frac) = n.
Proof.
  intros Hn.
  pose proof (decimalDigits_all n Hn) as Hall.
  pose proof (decimalDigits_value n Hn) as Hval.
  pose proof (decimalDigits_length n) as Hlen.
  pose proof (decimalDigits_canonical n Hn) as Hcan.
  unfold fixedDigits. destruct (Nat.eqb_spec f 0) as [->|Hf].
  - exists (decimalDigits n), "". rewrite !Str.append_nil_r.
    repeat split; auto.
  - set (m := decimalDigits n) in *. set (k := String.length m) in *.
    set (m' := if (k <=? f)%nat then zeros (f + 1 - k) +++ m else m).
    set (k' := if (k <=? f)%nat then (f + 1)%nat else k).
    assert (Hk' : String.length m' = k' /\ (f < k')%nat).
    { subst m' k'. destruct (Nat.leb_spec k f).
      - rewrite Str.length_append, length_zeros. fold k. lia.
      - fold k. lia. }
    assert (Hall' : all isDigit m' = true).
    { subst m'. destruct (k <=? f)%nat; [|exact Hall].
      now rewrite Str.all_append, all_zeros, Hall. }
    assert (Hval' : value m' = n).
    { subst m'. destruct (k <=? f)%nat; [|exact Hval].
      rewrite value_append, value_zeros, Hval. lia. }
    destruct Hk' as [Hlen' Hlt].
    pose proof (Str.substring_split (k' - f) m' ltac:(lia)) as Hsplit.
    replace (String.length m' - (k' - f))%nat with f in Hsplit by lia.
    pose proof (length_substring_0 (k' - f) m' ltac:(lia)) as Hla.
    exists (substring 0 (k' - f) m'), (substring (k' - f) f m').
    assert (Hlb : String.length (substring (k' - f) f m') = f).
    { pose proof (f_equal String.length Hsplit) as L.
      rewrite Str.length_append, Hla, Hlen' in L. lia. }
    assert (Hab := Hall'). rewrite <- Hsplit, Str.all_append in Hab.
    apply andb_true_iff in Hab as [Ha Hb].
    split; [reflexivity|]. split; [exact Ha|]. split; [exact Hb|].
    split; [exact Hlb|]. split; [|now rewrite Hsplit].
    subst m' k'. destruct (Nat.leb_spec k f) as [Hle|Hgt].
    + left. replace (f + 1 - f)%nat with 1%nat by lia.
      replace (f + 1 - k)%nat with (S (f - k)) by lia.
      cbn [zeros append]. rewrite substring_0_cons. now rewrite substring_0_0.
    + right. destruct Hcan as [E|(c & r & E & Hc)].
      * exfalso. fold m in E. subst k. rewrite E in Hgt. cbn in Hgt. lia.
      * fold m in E. rewrite E. exists c.
        replace (k - f)%nat with (S (k - f - 1)) by lia.
        rewrite substring_0_cons. eexists. split; [reflexivity | exact Hc].
Qed.

Lemma Qlt_isNegative (x : Q) : (x < 0)%Q -> isNegative x = true.
Proof.
  unfold isNegative, Qlt. cbn. intros H. apply Z.ltb_lt. lia.
Qed.

Lemma Qle_isNegative (x : Q) : (0 <= x)%Q -> isNegative x = false.
Proof.
  unfold isNegative, Qle. cbn. intros H. apply Z.ltb_ge. lia.
Qed.

(** [toFixed] rounds to the nearest multiple of [10^-f], the larger of
    two, and prints it with [f] digits after the point. *)
Lemma toFixed_rounded (f : nat) (x : Q) : Rounded f x (toFixed x f).
Proof.
  destruct (fixedDigits_layout f (roundScaled f x) (roundScaled_nonneg f x))
    as (whole & frac & E & Hw & Hf & Hl & Hc & Hv).
  destruct (roundScaled_bounds f x) as [L U]. unfold pow10 in L, U.
  exists (roundScaled f x), (sign x), whole, frac.
  split; [lra|]. split; [lra|].
  split; [intros H; unfold sign; now rewrite Qlt_isNegative|].
  split; [intros H; unfold sign; now rewrite Qle_isNegative|].
  repeat (split; [assumption|]).
  unfold toFixed. now rewrite E.
Qed.

Lemma pointHash_isToken (p : nat) (pt : PathPoint) :
  IsToken p pt (pointHash p pt).
Proof.
  exists (toFixed (fst (anchor pt)) p), (toFixed (snd (anchor pt)) p),
    (toFixed (fst (leftDirection pt)) p), (toFixed (snd (leftDirection pt)) p),
    (toFixed (fst (rightDirection pt)) p),
    (toFixed (snd (rightDirection pt)) p).
  repeat (split; [apply toFixed_rounded|]).
  unfold pointHash, fields. apply join_concat.
Qed.

Lemma pathToHash_isFingerprint (p : nat) (path : PageItem) :
  pointsOf path <> [] ->
  IsFingerprint p (pointsOf path) (closed path) (pathToHash p path).
Proof.
  intros Hne. exists (map (pointHash p) (pointsOf path)). split.
  - induction (pointsOf path) as [|pt pts IH]; cbn [map]; constructor.
    + apply pointHash_isToken.
    + destruct pts as [|q pts]; [constructor | apply IH; discriminate].
  - rewrite pathToHash_unfold, <- join_concat.
    destruct (pointsOf path) as [|pt pts]; [congruence | reflexivity].
Qed.

(** Within the limits of [toFixed], the engine returns what the
    positional formatting gives. *)
Section OnEngine.

Variable digitLimit : nat.
Variable numberToString : Q -> string.

Lemma toFixed_in_range (x : Q) (f : nat) :
  (f <= digitLimit)%nat -> inRange x ->
  Checked.toFixed digitLimit numberToString x f = inr (toFixed x f).
Proof.
  intros Hf Hx. unfold Checked.toFixed.
  destruct (Nat.ltb_spec digitLimit f); [lia|].
  destruct (Qle_bool (inject_Z (10 ^ 21)) (Qabs x)) eqn:E; [|reflexivity].
  apply Qle_bool_iff in E. unfold inRange in Hx.
  exfalso. exact (Qlt_not_le _ _ Hx E).
Qed.

Lemma pointHash_in_range (p : nat) (pt : PathPoint) :
  (p <= digitLimit)%nat -> pointInRange pt ->
  Checked.pointHash digitLimit numberToString p pt = inr (pointHash p pt).
Proof.
  intros Hp (H1 & H2 & H3 & H4 & H5 & H6).
  unfold Checked.pointHash, Checked.fields.
  rewrite !toFixed_in_range by assumption. reflexivity.
Qed.

Lemma pushes_in_range (p : nat) (pts : list PathPoint) :
  (p <= digitLimit)%nat -> Forall pointInRange pts ->
  forall acc,
    fold_left
      (fun acc pt =>
         Checked.andThen acc (fun pointHashes =>
         Checked.andThen (Checked.pointHash digitLimit numberToString p pt)
           (fun h => inr (pointHashes ++ [h]))))
      pts (inr acc)
    = inr (acc ++ map (pointHash p) pts).
Proof.
  intros Hp H. induction H as [|pt pts Hpt _ IH]; intros acc; cbn [fold_left map].
  - now rewrite app_nil_r.
  - cbn [Checked.andThen]. rewrite pointHash_in_range by assumption.
    cbn [Checked.andThen]. rewrite IH, <- app_assoc. reflexivity.
Qed.

Lemma pathToHash_in_range (p : nat) (path : PageItem) :
  (p <= digitLimit)%nat -> Forall pointInRange (pointsOf path) ->
  Checked.pathToHash digitLimit numberToString p path
  = inr (pathToHash p path).
Proof.
  intros Hp H. rewrite pathToHash_unfold.
  unfold Checked.pathToHash, pointsOf, marker in *.
  destruct (pathPoints path) as [[|pt pts]|]; try reflexivity.
  rewrite pushes_in_range by assumption. reflexivity.
Qed.

Lemma pushes_raised (p : nat) (pts : list PathPoint) (e : Thrown) :
  fold_left
    (fun acc pt =>
       Checked.andThen acc (fun pointHashes =>
       Checked.andThen (Checked.pointHash digitLimit numberToString p pt)
         (fun h => inr (pointHashes ++ [h]))))
    pts (inl e)
  = inl e.
Proof. induction pts as [|pt pts IH]; [reflexivity | exact IH]. Qed.

Lemma pointHash_beyond_limit (p : nat) (pt : PathPoint) :
  (digitLimit < p)%nat ->
  Checked.pointHash digitLimit numberToString p pt = inl RangeError.
Proof.
  intros Hp. unfold Checked.pointHash, Checked.fields, Checked.toFixed.
  destruct (Nat.ltb_spec digitLimit p); [reflexivity | lia].
Qed.

(** Beyond the digit limit the first [toFixed] raises, and the
    exception leaves [pathToHash]. *)
Lemma pathToHash_beyond_limit (p : nat) (path : PageItem) :
  (digitLimit < p)%nat -> pointsOf path <> [] ->
  Checked.pathToHash digitLimit numberToString p path = inl RangeError.
Proof.
  intros Hp Hne. unfold Checked.pathToHash, pointsOf in *.
  destruct (pathPoints path) as [[|pt pts]|]; try congruence.
  cbn [fold_left Checked.andThen].
  rewrite pointHash_beyond_limit by exact Hp.
  cbn [Checked.andThen]. now rewrite pushes_raised.
Qed.

End OnEngine.

End LayoutFacts.

(** ** A run, phase by phase *)

Module RunSpec.

Import Grouping Dedup Collect Engine TraversalFacts RunFacts.

Section WithHost.

Variable hostRemove : PageItem -> Document -> Document * option string.

Lemma attempts_cons (x : PageItem) (rest : list PageItem) (d : Document) :
  attempts hostRemove (x :: rest) d =
  (EvRemove x (snd (hostRemove x d))
     :: match snd (hostRemove x d) with
        | Some e => [EvWriteln e]
        | None => []
        end ++ fst (attempts hostRemove rest (fst (hostRemove x d))),
   snd (attempts hostRemove rest (fst (hostRemove x d)))).
Proof.
  cbn [attempts]. destruct (hostRemove x d) as [d' r]. cbn [fst snd].
  destruct (attempts hostRemove rest d'). reflexivity.
Qed.

Lemma attempts_app (a b : list PageItem) (d : Document) :
  attempts hostRemove (a ++ b) d =
  (fst (attempts hostRemove a d)
     ++ fst (attempts hostRemove b (snd (attempts hostRemove a d))),
   snd (attempts hostRemove b (snd (attempts hostRemove a d)))).
Proof.
  revert d; induction a as [|x a IH]; intros d.
  - cbn [app attempts fst snd]. now destruct (attempts hostRemove b d).
  - cbn [app]. rewrite !attempts_cons, IH. cbn [fst snd].
    f_equal. cbn [app]. f_equal. now rewrite app_assoc.
Qed.

(** The inner loop is a run of attempts on the members past the
    first. *)
Lemma removeEach_attempts (members : list PageItem) :
  forall count w,
    removeEach hostRemove members count w =
    ((count + successes (fst (attempts hostRemove members (document w))))%nat,
     mkWorld (snd (attempts hostRemove members (document w)))
       (events w ++ fst (attempts hostRemove members (document w)))).
Proof.
  induction members as [|m rest IH]; intros count w.
  - cbn. rewrite app_nil_r, Nat.add_0_r. now destruct w.
  - rewrite removeEach_cons, attempts_cons. cbn [fst snd].
    destruct (hostRemove m (document w)) as [d' [e|]]; rewrite IH;
      cbn [fst snd document events]; unfold successes; cbn [filter app length];
      rewrite <- ?app_assoc; cbn [app]; f_equal; lia.
Qed.

(** The loop over the table is a run of attempts on the duplicates. *)
Lemma removeDuplicates_attempts (table : HashTable) :
  forall count w,
    removeDuplicates hostRemove table count w =
    let targets := flat_map (fun g => skipn 1 (snd g)) table in
    ((count + successes (fst (attempts hostRemove targets (document w))))%nat,
     mkWorld (snd (attempts hostRemove targets (document w)))
       (events w ++ fst (attempts hostRemove targets (document w)))).
Proof.
  induction table as [|[k g] table IH]; intros count w; cbv zeta.
  - cbn. rewrite app_nil_r, Nat.add_0_r. now destruct w.
  - rewrite removeDuplicates_cons, removeEach_attempts. cbn [fst snd].
    rewrite IH. cbv zeta. cbn [flat_map snd document events].
    rewrite attempts_app. cbn [fst snd].
    rewrite successes_app, <- app_assoc. f_equal. lia.
Qed.

Lemma dedupe_attempts (hashOf : PageItem -> string) (items : list PageItem)
    (w : World) :
  dedupe hostRemove hashOf items w =
  (successes (fst (attempts hostRemove (duplicates hashOf items) (document w))),
   mkWorld (snd (attempts hostRemove (duplicates hashOf items) (document w)))
     (events w
        ++ fst (attempts hostRemove (duplicates hashOf items) (document w)))).
Proof. unfold dedupe. now rewrite removeDuplicates_attempts. Qed.

(** Every target is attempted, whatever the outcomes. *)
Lemma attempts_trace (targets : list PageItem) :
  forall d, removalTrace targets (fst (attempts hostRemove targets d)).
Proof.
  induction targets as [|x rest IH]; intros d.
  - repeat split.
  - rewrite attempts_cons. cbn [fst].
    change (x :: rest) with ([x] ++ rest).
    match goal with
    | |- removalTrace _ (?e :: ?l ++ ?r) =>
        change (e :: l ++ r) with ((e :: l) ++ r)
    end.
    apply removalTrace_app; [|apply IH].
    destruct (snd (hostRemove x d)); repeat split.
Qed.

(** [main] on an open document: phase 1, phase 2 on the document
    phase 1 leaves, and the final alert. *)
Lemma main_run (p : nat) (doc : Document) :
  main hostRemove p (Some doc) =
  (Some (documentAfterPhase2 hostRemove p doc),
   phase1Events hostRemove p doc ++ phase2Events hostRemove p doc
     ++ [EvAlert (finalMessage hostRemove p doc)]).
Proof.
  rewrite main_unfold. cbv zeta. rewrite dedupe_attempts.
  cbn [fst snd document events app].
  unfold finalMessage, documentAfterPhase2, phase2Events, phase2Targets,
    phase2Candidates, documentAfterPhase1, phase1Events, phase1Targets.
  set (d1 := duplicates (compoundPathToHash p) (compoundCandidates doc)).
  set (paths := candidatePaths (snd (attempts hostRemove d1 doc))
                  (length (layers doc))).
  destruct (nothingFound paths (compoundCandidates doc)) eqn:Hnf.
  - unfold nothingFound in Hnf. apply andb_true_iff in Hnf as [Hp _].
    apply Nat.eqb_eq, length_zero_iff_nil in Hp. rewrite Hp.
    reflexivity.
  - rewrite dedupe_attempts. cbn [fst snd document events].
    now rewrite <- app_assoc.
Qed.

Lemma main_targets (p : nat) (doc : Document) :
  removeTargets (snd (main hostRemove p (Some doc)))
  = phase1Targets p doc ++ phase2Targets hostRemove p doc.
Proof.
  rewrite main_run. cbn [snd]. rewrite !removeTargets_app.
  unfold phase1Events, phase2Events.
  destruct (attempts_trace (phase1Targets p doc) doc) as (-> & _).
  destruct (attempts_trace (phase2Targets hostRemove p doc)
              (documentAfterPhase1 hostRemove p doc)) as (-> & _).
  cbn. now rewrite app_nil_r.
Qed.

Lemma attempts_quiet (targets : list PageItem) :
  neverRaises hostRemove ->
  forall d, fst (attempts hostRemove targets d) = map removed targets.
Proof.
  intros Q. induction targets as [|x rest IH]; intros d; [reflexivity|].
  rewrite attempts_cons. cbn [fst map]. rewrite (Q x d). cbn [app].
  unfold removed at 2. f_equal. apply IH.
Qed.

Lemma successes_removed (targets : list PageItem) :
  successes (map removed targets) = length targets.
Proof.
  unfold successes. induction targets as [|x rest IH]; [reflexivity|].
  cbn [map filter removed length]. now rewrite <- IH.
Qed.

End WithHost.









End RunSpec.

(** ** The claims on the layout, on retention and on failures *)

Import LayoutFacts RunSpec TraversalFacts RunFacts.

(** C1, as stated, fails: on an engine whose [toFixed] takes at most
    100 fraction digits, [pathToHash] at precision 101 raises a
    RangeError for the outline with one corner point and returns no
    fingerprint at all. *)
Lemma fingerprint_layout_fails_beyond_digit_limit :
  ~ (forall (numberToString : Q -> string) (p : nat) (path : PageItem)
       (pts : list PathPoint),
       pathPoints path = Some pts -> pts <> [] ->
       exists key,
         Checked.pathToHash 100 numberToString p path = inr key
         /\ IsFingerprint p pts (closed path) key).
Proof.
  intros H.
  destruct (H (fun _ => "") 101%nat outlineBelowHalf [cornerAt (15 # 32) 0]
              eq_refl) as (key & E & _); [discriminate|].
  rewrite pathToHash_beyond_limit in E; [discriminate | lia | discriminate].
Qed.

(** C1, amended. For a simple shape with at least one control point:
    when the precision is within the engine's digit limit and every
    coordinate is below [10^21] in magnitude, [pathToHash] returns the
    fingerprint the specification describes, per point the six
    coordinates rounded to the nearest multiple of [10^-precision] and
    printed with exactly [precision] decimals and the kind tag joined by
    commas, the tokens joined by semicolons in original order, then "|"
    and the closed/open marker; that fingerprint differs from the one of
    every shape in range whose closed flag is the opposite one; and
    beyond the digit limit [pathToHash] raises a RangeError. *)
Theorem fingerprint_layout (digitLimit : nat) (numberToString : Q -> string)
    (p : nat) (path : PageItem) (pts : list PathPoint) :
  pathPoints path = Some pts -> pts <> [] ->
  ((p <= digitLimit)%nat -> Forall pointInRange pts ->
   exists key,
     Checked.pathToHash digitLimit numberToString p path = inr key
     /\ IsFingerprint p pts (closed path) key
     /\ forall other : PageItem,
          Forall pointInRange (pointsOf other) ->
          closed other = negb (closed path) ->
          Checked.pathToHash digitLimit numberToString p other <> inr key)
  /\ ((digitLimit < p)%nat ->
      Checked.pathToHash digitLimit numberToString p path = inl RangeError).
Proof.
  intros E Hne.
  assert (Hpts : pointsOf path = pts) by (unfold pointsOf; now rewrite E).
  split.
  - intros Hp Hr. exists (pathToHash p path). repeat split.
    + apply pathToHash_in_range; [exact Hp | now rewrite Hpts].
    + rewrite <- Hpts. apply pathToHash_isFingerprint. now rewrite Hpts.
    + intros other Ho Hc H.
      rewrite pathToHash_in_range in H by assumption.
      injection H as H. symmetry in H.
      destruct (pathToHash_inj p path other H) as [_ Hcl].
      rewrite Hpts in Hcl. specialize (Hcl Hne). rewrite Hc in Hcl.
      destruct (closed path); discriminate.
  - intros Hp. apply pathToHash_beyond_limit; [exact Hp | now rewrite Hpts].
Qed.

Lemma fingerprint_layout_witness :
  (exists key,
     Checked.pathToHash 100 (fun _ => "") 1 outlineBelowHalf = inr key
     /\ IsFingerprint 1 [cornerAt (15 # 32) 0] true key
     /\ Checked.pathToHash 100 (fun _ => "") 1
          (pathItem 1 [cornerAt (15 # 32) 0] false) <> inr key)
  /\ Checked.pathToHash 1 (fun _ => "") 2 outlineBelowHalf = inl RangeError.
Proof.
  destruct (fingerprint_layout 100 (fun _ => "") 1 outlineBelowHalf
              [cornerAt (15 # 32) 0])
    as [H1 _]; [reflexivity | discriminate |].
  destruct (fingerprint_layout 1 (fun _ => "") 2 outlineBelowHalf
              [cornerAt (15 # 32) 0])
    as [_ H2]; [reflexivity | discriminate |].
  split; [|apply H2; lia].
  destruct H1 as (key & K1 & K2 & K3).
  - lia.
  - repeat constructor.
  - exists key. split; [exact K1|]. split; [exact K2|].
    apply K3; [repeat constructor | reflexivity].
Defined.






(** C6. Whatever the host's [remove()] does, raising included, the
    trace of a run is the attempts on the duplicates of phase 1, those
    on the duplicates of phase 2 and one alert.  In each phase
    [remove()] is called on every duplicate, in order, also after a
    call that raised; every exception is written to the console and
    nothing else is; the number of duplicates is the number of calls
    that returned plus the number that raised; the counts in the final
    message are the numbers of calls that returned.  With three
    identical shapes A, B, C and a host that refuses B: C is still
    removed, and one removal is reported. *)
Theorem failure_tolerance
    (hostRemove : PageItem -> Document -> Document * option string)
    (p : nat) (doc : Document) :
  let ev1 := phase1Events hostRemove p doc in
  let ev2 := phase2Events hostRemove p doc in
  snd (main hostRemove p (Some doc))
  = ev1 ++ ev2 ++
    [EvAlert (if nothingFound (phase2Candidates hostRemove p doc)
                   (compoundCandidates doc)
              then nothingEligible
              else summary (successes ev2) (successes ev1))]
  /\ removalTrace (phase1Targets p doc) ev1
  /\ removalTrace (phase2Targets hostRemove p doc) ev2
  /\ forall (pt : PathPoint) (pts : list PathPoint) (cl : bool),
       let A := pathItem 1 (pt :: pts) cl in
       let B := pathItem 2 (pt :: pts) cl in
       let C := pathItem 3 (pt :: pts) cl in
       main (Host.remove [2%nat]) p
         (Some (mkDocument [layer 0 [A; B; C]] None))
       = (Some (mkDocument [layer 0 [A; B]] None),
          [EvRemove B (Some "Error: the item cannot be removed");
           EvWriteln "Error: the item cannot be removed";
           EvRemove C None;
           EvAlert "Removed 1 duplicate path item, 0 duplicate compound paths!"]).
Proof.
  cbv zeta. split; [|split; [|split]].
  - rewrite main_run. reflexivity.
  - apply attempts_trace.
  - apply attempts_trace.
  - intros pt pts cl. cbv zeta.
    pose proof (three_identical_candidates p pts pt cl (Host.remove [2%nat]))
      as H.
    cbv zeta in H. rewrite H. reflexivity.
Qed.

(** X13. When the document phase 1 leaves has a non-empty selection
    (it is the given document when no compound path is a duplicate),
    every simple path [remove()] is called on during the run is a
    selected item or lies below one. *)
Theorem selection_confines_phase2
    (hostRemove : PageItem -> Document -> Document * option string)
    (p : nat) (doc : Document) :
  (phase1Targets p doc = [] -> documentAfterPhase1 hostRemove p doc = doc)
  /\ forall sel,
       selection (documentAfterPhase1 hostRemove p doc) = Some sel ->
       sel <> [] ->
       forall x,
         In x (removeTargets (snd (main hostRemove p (Some doc)))) ->
         typename x = "PathItem" ->
         In x (flat_map subtree sel).
Proof.
  split.
  - intros E. unfold documentAfterPhase1. now rewrite E.
  - intros sel E Hne x Hx Ht. rewrite main_targets in Hx.
    apply in_app_iff in Hx as [Hx|Hx]; apply duplicates_In in Hx as [Hx _].
    + pose proof (compoundCandidates_typed doc) as T1.
      rewrite Forall_forall in T1. apply T1 in Hx as [Hx _].
      rewrite Hx in Ht. discriminate.
    + now apply (selected_within _ (length (layers doc)) sel E Hne).
Qed.

Lemma selection_confines_phase2_witness :
  let inside := pathItem 1 [cornerAt 0 0] true in
  let twin := pathItem 2 [cornerAt 0 0] true in
  let outside := pathItem 3 [cornerAt 0 0] true in
  let doc := mkDocument [layer 0 [inside; twin; outside]]
               (Some [inside; twin]) in
  removeTargets (snd (main (Host.remove []) 1 (Some doc))) = [twin]
  /\ forall x,
       In x (removeTargets (snd (main (Host.remove []) 1 (Some doc)))) ->
       typename x = "PathItem" ->
       In x (flat_map subtree [inside; twin]).
Proof.
  intros inside twin outside doc. split; [vm_compute; reflexivity|].
  destruct (selection_confines_phase2 (Host.remove []) 1 doc) as [H1 H2].
  apply H2; [|discriminate].
  rewrite H1; reflexivity.
Defined.

(** X14. On a host whose [remove()] never raises, a run ends with the
    document the attempts of the two phases leave, and its trace is: one
    successful removal per duplicate compound path, one per duplicate
    path among the candidates read after phase 1, and the alert, which
    reports the two numbers of duplicates unless nothing was found. *)
Theorem quiet_host_trace
    (hostRemove : PageItem -> Document -> Document * option string)
    (p : nat) (doc : Document) :
  neverRaises hostRemove ->
  main hostRemove p (Some doc) =
  (Some (documentAfterPhase2 hostRemove p doc),
   map removed (phase1Targets p doc)
   ++ map removed (phase2Targets hostRemove p doc)
   ++ [EvAlert (if nothingFound (phase2Candidates hostRemove p doc)
                     (compoundCandidates doc)
                then nothingEligible
                else summary (length (phase2Targets hostRemove p doc))
                       (length (phase1Targets p doc)))]).
Proof.
  intros Q. rewrite main_run. unfold finalMessage, phase1Events, phase2Events.
  rewrite !(attempts_quiet hostRemove _ Q), !successes_removed.
  reflexivity.
Qed.

Lemma quiet_host_trace_witness :
  main (Host.remove []) 1
    (Some (mkDocument [layer 0 [outlineBelowHalf; outlineAboveHalf]] None))
  = (Some (mkDocument [layer 0 [outlineBelowHalf]] None),
     [EvRemove outlineAboveHalf None;
      EvAlert "Removed 1 duplicate path item, 0 duplicate compound paths!"]).
Proof.
  rewrite (quiet_host_trace (Host.remove []) 1
             (mkDocument [layer 0 [outlineBelowHalf; outlineAboveHalf]] None)).
  - vm_compute. reflexivity.
  - intros x d. reflexivity.
Defined.
